(** * The worker-pool scheduler of [src/libs/http-server/index.js]

    A shallow embedding of the [WorkerManager] object (admission gate, FIFO
    task queue, race between a worker and its timeout) and of the response
    formatting done by [handleRequest], followed by the properties of the
    scheduler stated over every run of the event loop. *)

From Stdlib Require Import Ascii.
From stdpp Require Import base numbers list strings pretty.

Local Open Scope Z_scope.

(** ** Values that cross the scheduler *)

(** The three classes of error the [catch] callback of [runNext] tells apart
    with [instanceof]: the two classes imported from [./exceptions], and any
    other error object. *)
Inductive jsError :=
| ErrorRequestTimeout (message : string)
| ErrorWorkerExit (message : string)
| ErrorOther (message : string).

(** The message a worker posts, as [handleRequest] destructures it. *)
Record response := Response {
  isApiResource : bool;
  httpCode : Z;
  data : string;
}.

(** What [addTask] reads from the Express request. *)
Record httpReq := HttpReq {
  isApiRoute : bool;
  reqContent : string;
}.

(** The [workerData] object built by [addTask]. *)
Record workerData := WorkerData {
  wd_queueId : string;
  wd_useLogger : bool;
  wd_isApiResource : bool;
  wd_handlerPath : string;
  wd_request : string;
}.

(** The functions [index.js] imports from modules that are not part of the
    file: the request serializer, the resolution of a handler path against
    [handlerDir], and the two response builders of [ErrorRequestTimeout]. *)
Class Collaborators := {
  serializeHttpReq : httpReq → string;
  joinHandlerDir : string → string;
  toHttpApiResponse : jsError → response;
  toHttpResponse : jsError → response;
}.

(** ** The heap: promises and workers *)

(** State of the promise returned by [addTask]. *)
Inductive settlement :=
| Pending
| Fulfilled (r : response)
| Rejected (e : jsError).

(** A queue entry [{ workerData, resolve, reject }]. The two closures belong
    to one promise, named here by its index in the promise store. *)
Record task := Task {
  workerDataOf : workerData;
  resolver : nat;
}.

(** One admitted task: the [Worker] object, the closures captured by the
    callbacks of [runNext], and whether [Promise.race] has settled. *)
Record worker := Worker {
  w_data : workerData;
  w_resolver : nat;
  w_settled : bool;
  w_terminated : bool;
}.

(** Calls and writes that leave a mark outside the callback that makes them,
    in program order. *)
Inductive effect :=
| ECurrWorker (v : Z)
| ESetTimeout (w : nat) (ms : Z)
| ESpawn (w : nat) (wd : workerData)
| ETerminate (w : nat)
| EResolve (p : nat) (r : response)
| EReject (p : nat) (e : jsError)
| EThrow (e : jsError).

(** The fields of the [WorkerManager] object, then the objects it reaches:
    promises indexed in creation order, workers indexed in spawn order, the
    rejections nobody handles, and the log of effects. *)
Record WorkerManager := Manager {
  maxWorkers : Z;
  currWorker : Z;
  taskQueue : list task;
  timeoutMs : Z;
  useLogger : bool;
  promises : list settlement;
  workers : list worker;
  unhandled : list jsError;
  trace : list effect;
}.

Definition initWith (maxW tmo : Z) (logger : bool) : WorkerManager :=
  {| maxWorkers := maxW; currWorker := 0; taskQueue := [];
     timeoutMs := tmo; useLogger := logger;
     promises := []; workers := []; unhandled := []; trace := [] |}.

(** The object literal of the source. *)
Definition WorkerManager0 : WorkerManager := initWith 10 10000 false.

(** ** Field updates *)

Definition set_currWorker (v : Z) (s : WorkerManager) : WorkerManager :=
  {| maxWorkers := maxWorkers s; currWorker := v; taskQueue := taskQueue s;
     timeoutMs := timeoutMs s; useLogger := useLogger s;
     promises := promises s; workers := workers s;
     unhandled := unhandled s; trace := trace s ++ [ECurrWorker v] |}.

Definition set_taskQueue (q : list task) (s : WorkerManager) : WorkerManager :=
  {| maxWorkers := maxWorkers s; currWorker := currWorker s; taskQueue := q;
     timeoutMs := timeoutMs s; useLogger := useLogger s;
     promises := promises s; workers := workers s;
     unhandled := unhandled s; trace := trace s |}.

Definition set_promises (ps : list settlement) (s : WorkerManager) : WorkerManager :=
  {| maxWorkers := maxWorkers s; currWorker := currWorker s;
     taskQueue := taskQueue s;
     timeoutMs := timeoutMs s; useLogger := useLogger s;
     promises := ps; workers := workers s;
     unhandled := unhandled s; trace := trace s |}.

Definition set_workers (ws : list worker) (s : WorkerManager) : WorkerManager :=
  {| maxWorkers := maxWorkers s; currWorker := currWorker s;
     taskQueue := taskQueue s;
     timeoutMs := timeoutMs s; useLogger := useLogger s;
     promises := promises s; workers := ws;
     unhandled := unhandled s; trace := trace s |}.

Definition set_unhandled (es : list jsError) (s : WorkerManager) : WorkerManager :=
  {| maxWorkers := maxWorkers s; currWorker := currWorker s;
     taskQueue := taskQueue s;
     timeoutMs := timeoutMs s; useLogger := useLogger s;
     promises := promises s; workers := workers s;
     unhandled := es; trace := trace s |}.

Definition log (es : list effect) (s : WorkerManager) : WorkerManager :=
  {| maxWorkers := maxWorkers s; currWorker := currWorker s;
     taskQueue := taskQueue s;
     timeoutMs := timeoutMs s; useLogger := useLogger s;
     promises := promises s; workers := workers s;
     unhandled := unhandled s; trace := trace s ++ es |}.

(** ** Promise and worker primitives *)

(** Settling a promise: the first call wins, later calls do nothing. *)
Definition settle (p : nat) (o : settlement) (ps : list settlement)
  : list settlement :=
  match ps !! p with
  | Some Pending => <[p := o]> ps
  | _ => ps
  end.

Definition resolve (p : nat) (r : response) (s : WorkerManager) : WorkerManager :=
  log [EResolve p r] (set_promises (settle p (Fulfilled r) (promises s)) s).

Definition reject (p : nat) (e : jsError) (s : WorkerManager) : WorkerManager :=
  log [EReject p e] (set_promises (settle p (Rejected e) (promises s)) s).

Definition mark_terminated (wk : worker) : worker :=
  {| w_data := w_data wk; w_resolver := w_resolver wk;
     w_settled := w_settled wk; w_terminated := true |}.

Definition mark_settled (wk : worker) : worker :=
  {| w_data := w_data wk; w_resolver := w_resolver wk;
     w_settled := true; w_terminated := w_terminated wk |}.

(** [worker.terminate()] *)
Definition terminate (w : nat) (s : WorkerManager) : WorkerManager :=
  log [ETerminate w] (set_workers (alter mark_terminated w (workers s)) s).

(** [Promise.race] of worker [w] takes its first settlement. *)
Definition raceSettled (w : nat) (s : WorkerManager) : WorkerManager :=
  set_workers (alter mark_settled w (workers s)) s.

(** [this.currWorker++] and [this.currWorker--] *)
Definition incrCurrWorker (s : WorkerManager) : WorkerManager :=
  set_currWorker (currWorker s + 1) s.

Definition decrCurrWorker (s : WorkerManager) : WorkerManager :=
  set_currWorker (currWorker s - 1) s.

(** ** Callbacks: state passing with an exception *)

Inductive completion :=
| Normal
| Thrown (e : jsError).

Definition action := WorkerManager → completion * WorkerManager.

Definition exec (f : WorkerManager → WorkerManager) : action :=
  λ s, (Normal, f s).

Definition throw (e : jsError) : action :=
  λ s, (Thrown e, log [EThrow e] s).

Definition andThen (a b : action) : action :=
  λ s, match a s with
       | (Normal, s') => b s'
       | (Thrown e, s') => (Thrown e, s')
       end.

Notation "a >>> b" := (andThen a b) (at level 65, right associativity).

(** [promise.then(onFulfilled).catch(onRejected)]: a fulfilled promise runs
    [onFulfilled], and what that throws goes to [onRejected]; a rejected
    promise runs [onRejected]; what [onRejected] throws is the rejection of
    a promise that has no handler. *)
Definition then_catch (outcome : response + jsError)
    (onFulfilled : response → action) (onRejected : jsError → action)
    (s : WorkerManager) : WorkerManager :=
  let '(c, s1) := match outcome with
                  | inl r => onFulfilled r s
                  | inr e => (Thrown e, s)
                  end in
  match c with
  | Normal => s1
  | Thrown e =>
      let '(c2, s2) := onRejected e s1 in
      match c2 with
      | Normal => s2
      | Thrown e' => set_unhandled (unhandled s2 ++ [e']) s2
      end
  end.

(** ** The scheduler *)

Section Scheduler.
Context `{Collaborators}.

Definition createQueueId (s : WorkerManager) (dateTime : N) : string :=
  let queueCount := length (taskQueue s) in
  "q" +:+ pretty queueCount +:+ "." +:+ pretty dateTime.

(** [runNext]: the gate, then [shift], the increment, the timer, the worker.
    Building the timer and the worker is taken not to throw. *)
Definition runNext (s : WorkerManager) : WorkerManager :=
  if (currWorker s >=? maxWorkers s) || (length (taskQueue s) <? 1)%nat
  then s
  else
    match taskQueue s with
    | [] => s
    | t :: rest =>
        let w := length (workers s) in
        let s1 := set_taskQueue rest s in
        let s2 := incrCurrWorker s1 in
        let s3 := log [ESetTimeout w (timeoutMs s2)] s2 in
        let wk := {| w_data := workerDataOf t; w_resolver := resolver t;
                     w_settled := false; w_terminated := false |} in
        log [ESpawn w (workerDataOf t)] (set_workers (workers s3 ++ [wk]) s3)
    end.

(** [addTask]; [dateTime] is what [Date.now()] returns during the call. The
    promise it returns is the one created last. *)
Definition addTask (handlerPath : string) (req : httpReq) (dateTime : N)
    (s : WorkerManager) : WorkerManager :=
  let queueId := createQueueId s dateTime in
  let wd := {| wd_queueId := queueId;
               wd_useLogger := useLogger s;
               wd_isApiResource := isApiRoute req;
               wd_handlerPath := joinHandlerDir handlerPath;
               wd_request := serializeHttpReq req |} in
  let p := length (promises s) in
  let s1 := set_promises (promises s ++ [Pending]) s in
  let s2 := set_taskQueue (taskQueue s1 ++ [Task wd p]) s1 in
  runNext s2.

(** The [then] callback of the race. *)
Definition onRaceFulfilled (wk : worker) (r : response) : action :=
  exec (resolve (w_resolver wk) r) >>>
  exec decrCurrWorker >>>
  exec runNext.

(** The [catch] callback of the race, for the worker with index [w]. *)
Definition onRaceRejected (w : nat) (wk : worker) (err : jsError) : action :=
  exec (terminate w) >>>
  match err with
  | ErrorRequestTimeout _ =>
      if wd_isApiResource (w_data wk)
      then exec (resolve (w_resolver wk) (toHttpApiResponse err))
      else exec (resolve (w_resolver wk) (toHttpResponse err))
  | ErrorWorkerExit _ => throw err
  | ErrorOther _ => exec (reject (w_resolver wk) err)
  end >>>
  exec decrCurrWorker >>>
  exec runNext.

(** The race of worker [w] settles with [outcome]. Only the first settlement
    of [Promise.race] runs the callbacks. *)
Definition settleRace (w : nat) (outcome : response + jsError)
    (s : WorkerManager) : WorkerManager :=
  match workers s !! w with
  | Some wk =>
      if w_settled wk then s
      else then_catch outcome (onRaceFulfilled wk) (onRaceRejected w wk)
             (raceSettled w s)
  | None => s
  end.

(** ** The event loop *)

(** What the environment delivers: a call of [addTask], one of the three
    events of a worker, or the timer of a race. *)
Inductive event :=
| AddTask (handlerPath : string) (req : httpReq) (dateTime : N)
| WorkerMessage (w : nat) (r : response)
| WorkerError (w : nat) (err : jsError)
| WorkerExit (w : nat) (exitCode : Z)
| TimerFired (w : nat).

Definition exitError (exitCode : Z) : jsError :=
  ErrorWorkerExit ("worker stopped with exit code " +:+ pretty exitCode).

Definition timeoutError : jsError := ErrorRequestTimeout "request timeout".

Definition step (s : WorkerManager) (ev : event) : WorkerManager :=
  match ev with
  | AddTask handlerPath req dateTime => addTask handlerPath req dateTime s
  | WorkerMessage w r => settleRace w (inl r) s
  | WorkerError w err => settleRace w (inr err) s
  | WorkerExit w exitCode =>
      if negb (exitCode =? 0)
      then settleRace w (inr (exitError exitCode)) s
      else s
  | TimerFired w => settleRace w (inr timeoutError) s
  end.

Definition run (evs : list event) (s : WorkerManager) : WorkerManager :=
  foldl step s evs.

End Scheduler.

(** ** The dispatch layer: [handleRequest] *)

(** Calls made on the Express [res] object, on the logger and on [next]. *)
Inductive resCall :=
| ResStatus (code : Z)
| ResJson (body : string)
| ResSend (body : string)
| LoggerError (e : jsError)
| NextWith (e : jsError).

(** The [then] callback attached to the promise of [addTask]. *)
Definition onTaskFulfilled (r : response) : list resCall :=
  let '(Response isApiResource httpCode data) := r in
  if isApiResource
  then [ResStatus httpCode; ResJson data]
  else [ResStatus httpCode; ResSend data].

(** The [catch] callback attached to the promise of [addTask]. *)
Definition onTaskRejected (err : jsError) : list resCall :=
  [LoggerError err; NextWith err].

(** What the callbacks of [handleRequest] do once the promise has the given
    state. *)
Definition respond (o : settlement) : list resCall :=
  match o with
  | Pending => []
  | Fulfilled r => onTaskFulfilled r
  | Rejected e => onTaskRejected e
  end.

(** [handleRequest(handlerPath)]: refuses while [app] is [null], otherwise
    gives the middleware, which submits the request to the scheduler.
    [handlerPath] is a string by its type here, so the test on
    [typeof handlerPath] has nothing to refuse. *)
Definition handleRequest `{Collaborators} (app : bool) (handlerPath : string)
  : jsError + (httpReq → N → WorkerManager → WorkerManager) :=
  if negb app then inl (ErrorOther "app is not initialized yet")
  else inr (addTask handlerPath).

(** ** A concrete environment, for running the model *)

Definition demoCollaborators : Collaborators :=
  {| serializeHttpReq := reqContent;
     joinHandlerDir := λ p, "/srv/http/" +:+ p;
     toHttpApiResponse := λ _, Response true 408 "{error:true,code:408}";
     toHttpResponse := λ _, Response false 408 "408 Request Timeout" |}.

Definition demoRun (maxW : Z) (evs : list event) : WorkerManager :=
  run (H := demoCollaborators) evs (initWith maxW 10000 false).

Definition apiReq : httpReq := HttpReq true "GET /api/status".
Definition webReq : httpReq := HttpReq false "GET /index".

(** Two submissions against a pool of one slot: the first is admitted at
    once as worker 0, the second waits. *)
Definition demoQueue : list event :=
  [AddTask "a" apiReq 5%N; AddTask "b" webReq 6%N].

Abbreviation demoState :=
  (run (H := demoCollaborators) demoQueue (initWith 1 10000 false)).

Definition demoWorkerA : worker :=
  Worker (WorkerData "q0.5" false true "/srv/http/a" "GET /api/status")
    0 false false.

Definition demoWorkerB : worker :=
  Worker (WorkerData "q0.6" false false "/srv/http/b" "GET /index")
    1 false false.

(** ** Quantities the properties are stated with *)

(** A worker whose race has not settled yet. *)
Definition racing (wk : worker) : Prop := w_settled wk = false.

Global Instance racing_dec wk : Decision (racing wk) :=
  decide (w_settled wk = false).

(** Number of execution units admitted and not yet through with their race. *)
Definition inflight (s : WorkerManager) : nat :=
  length (filter racing (workers s)).

(** Every value ever written to [currWorker] lies between 0 and the limit. *)
Definition counterOk (maxW : Z) (e : effect) : Prop :=
  match e with
  | ECurrWorker v => 0 ≤ v ≤ maxW
  | _ => True
  end.

(** Promise [p] can still be settled: its closures are held by a queue entry
    or by a worker whose race is open. *)
Definition owns (p : nat) (s : WorkerManager) : Prop :=
  (∃ w wk, workers s !! w = Some wk ∧ racing wk ∧ w_resolver wk = p)
  ∨ (∃ t, t ∈ taskQueue s ∧ resolver t = p).

(** The invariant of the event loop. [k] is 1 inside a race callback, between
    the settlement of the race and the release of its slot, and 0 between
    events. *)
Record consistent (k : Z) (s : WorkerManager) : Prop := {
  c_slots :
    currWorker s = Z.of_nat (inflight s) + Z.of_nat (length (unhandled s)) + k;
  c_bound : currWorker s ≤ Z.max 0 (maxWorkers s);
  c_fifo :
    (w_resolver <$> workers s) ++ (resolver <$> taskQueue s)
    = seq 0 (length (promises s));
  c_pending : ∀ p, owns p s → promises s !! p = Some Pending;
  c_trace : Forall (counterOk (Z.max 0 (maxWorkers s))) (trace s);
}.

(** The calls of [addTask] among the events, in order. *)
Definition submitted (evs : list event) : list (string * httpReq) :=
  evs ≫= λ ev,
    match ev with
    | AddTask handlerPath req _ => [(handlerPath, req)]
    | _ => []
    end.

(** The part of a descriptor that comes from the caller. *)
Definition payload (wd : workerData) : string * string * bool :=
  (wd_handlerPath wd, wd_request wd, wd_isApiResource wd).

Definition payloadOf `{Collaborators} (sub : string * httpReq)
  : string * string * bool :=
  (joinHandlerDir sub.1, serializeHttpReq sub.2, isApiRoute sub.2).

(** Every entry pushed so far with its promise: the admitted ones in the
    order of admission, then the queue from its head. *)
Definition entries (s : WorkerManager) : list (nat * workerData) :=
  ((λ wk, (w_resolver wk, w_data wk)) <$> workers s)
  ++ ((λ t, (resolver t, workerDataOf t)) <$> taskQueue s).

(** The ids of all descriptors built so far. *)
Definition queueIds (s : WorkerManager) : list string :=
  (wd_queueId ∘ snd) <$> entries s.

(** The rejection of a race that an event stands for, if any: the timer, a
    non-zero exit code, or an error event. *)
Definition rejection (ev : event) : option (nat * jsError) :=
  match ev with
  | TimerFired w => Some (w, timeoutError)
  | WorkerExit w exitCode =>
      if negb (exitCode =? 0) then Some (w, exitError exitCode) else None
  | WorkerError w err => Some (w, err)
  | _ => None
  end.

(** What the [catch] callback of the race does with the promise of the
    caller, after [terminate]. *)
Definition classified `{Collaborators} (wk : worker) (err : jsError) : effect :=
  match err with
  | ErrorRequestTimeout _ =>
      EResolve (w_resolver wk)
        (if wd_isApiResource (w_data wk)
         then toHttpApiResponse err else toHttpResponse err)
  | ErrorWorkerExit _ => EThrow err
  | ErrorOther _ => EReject (w_resolver wk) err
  end.

(** With no slot at all: nothing was ever started or settled. *)
Definition starved (s : WorkerManager) : Prop :=
  maxWorkers s = 0 ∧ currWorker s = 0 ∧ workers s = []
  ∧ Forall (λ o, o = Pending) (promises s)
  ∧ trace s = [] ∧ unhandled s = [].

(** No slot is free and no race is open: nothing can free one. *)
Definition jammed (s : WorkerManager) : Prop :=
  currWorker s >= maxWorkers s
  ∧ ∀ w wk, workers s !! w = Some wk → w_settled wk = true.

(** A text in which no dot occurs, as the decimal form of a number. *)
Fixpoint dotFree (s : string) : bool :=
  match s with
  | EmptyString => true
  | String c s' => negb (Ascii.eqb c "."%char) && dotFree s'
  end.

(** ** The rest of the module: values, [defineApp], [serveApp] *)

(** JavaScript values as far as [typeof], truthiness and template literals
    tell them apart. Numbers are the integers and [NaN]; a function stands
    for its source text and an object for its string form. *)
Inductive jsValue :=
| JUndefined
| JNull
| JBoolean (b : bool)
| JNumber (n : Z)
| JNaN
| JString (text : string)
| JFunction (source : string)
| JObject (text : string).

Inductive jsType :=
| TyUndefined | TyObject | TyBoolean | TyNumber | TyString | TyFunction.

Global Instance jsType_eq_dec : EqDecision jsType.
Proof. solve_decision. Defined.

Definition typeofJs (v : jsValue) : jsType :=
  match v with
  | JUndefined => TyUndefined
  | JNull => TyObject
  | JBoolean _ => TyBoolean
  | JNumber _ | JNaN => TyNumber
  | JString _ => TyString
  | JFunction _ => TyFunction
  | JObject _ => TyObject
  end.

(** What [if (v)] takes for true. *)
Definition truthy (v : jsValue) : bool :=
  match v with
  | JUndefined | JNull | JNaN => false
  | JBoolean b => b
  | JNumber n => negb (n =? 0)
  | JString text => negb (String.eqb text "")
  | JFunction _ | JObject _ => true
  end.

(** The text a value takes inside a template literal; integers in decimal,
    as JavaScript prints them below 10^21. *)
Definition templateText (v : jsValue) : string :=
  match v with
  | JUndefined => "undefined"
  | JNull => "null"
  | JBoolean b => if b then "true" else "false"
  | JNumber n => pretty n
  | JNaN => "NaN"
  | JString text => text
  | JFunction source => source
  | JObject text => text
  end.

(** [module.exports.config] *)
Record moduleConfig := ModuleConfig {
  baseUrl : string;
  defaultPort : Z;
}.

Definition config : moduleConfig :=
  {| baseUrl := "/"; defaultPort := 3000 |}.

(** Calls of [use] on the Express application made by [defineApp]. *)
Inductive appLayer :=
| UseWebRouter (path : string)
| UseNotFound (status : Z) (body : string).

(** The module variables: [app], [null] until [defineApp] assigns it, and
    the [WorkerManager] object. *)
Record appModule := AppModule {
  app : option (list appLayer);
  manager : WorkerManager;
}.

Definition module0 : appModule := AppModule None WorkerManager0.

(** [WorkerManager.useLogger = b] *)
Definition set_useLogger (b : bool) (s : WorkerManager) : WorkerManager :=
  {| maxWorkers := maxWorkers s; currWorker := currWorker s;
     taskQueue := taskQueue s;
     timeoutMs := timeoutMs s; useLogger := b;
     promises := promises s; workers := workers s;
     unhandled := unhandled s; trace := trace s |}.

(** [defineApp(setup)]. [loggerFound] is whether
    [globalState.find("logger.httpServer")] gives a truthy value, and
    [setupResult] is how the call of [setup] ends. The routers live in
    Express objects; of them only the two [use] calls on [app] are kept. *)
Definition defineApp (setup : jsValue) (loggerFound : bool)
    (setupResult : completion) (m : appModule) : completion * appModule :=
  if bool_decide (typeofJs setup ≠ TyFunction)
  then (Thrown (ErrorOther "setup is not function(app)"), m)
  else
    let wm := if negb loggerFound then manager m
              else set_useLogger true (manager m) in
    match setupResult with
    | Thrown e => (Thrown e, AppModule (Some []) wm)
    | Normal =>
        (Normal,
         AppModule (Some [UseWebRouter (baseUrl config);
                          UseNotFound 404 "404 Not Found"]) wm)
    end.

(** One call of [defineApp] as the environment makes it. *)
Record defineCall := DefineCall {
  dc_setup : jsValue;
  dc_loggerFound : bool;
  dc_setupResult : completion;
}.

Definition defineApps (calls : list defineCall) (m : appModule) : appModule :=
  foldl (λ m c,
           (defineApp (dc_setup c) (dc_loggerFound c) (dc_setupResult c) m).2)
    m calls.

(** The three routers of [defineApp] and how they are nested:
    [webRouter.use("/api", apiRouter)] and
    [apiRouter.use("/wabot...", waApiRouter)]. *)
Inductive router := WebRouter | ApiRouter | WaApiRouter.

(** The fields the first middleware of each router writes on the request. *)
Record routeFlags := RouteFlags {
  routerType : string;
  flag_isApiRoute : bool;
  flag_isWaApiRoute : bool;
}.

Definition stamp (r : router) (_ : routeFlags) : routeFlags :=
  match r with
  | WaApiRouter => RouteFlags "waApiRouter" true true
  | ApiRouter => RouteFlags "apiRouter" true false
  | WebRouter => RouteFlags "webRouter" false false
  end.

(** The routers a request goes through, outermost first, before it reaches
    a handler registered on [r]. *)
Definition routersTo (r : router) : list router :=
  match r with
  | WebRouter => [WebRouter]
  | ApiRouter => [WebRouter; ApiRouter]
  | WaApiRouter => [WebRouter; ApiRouter; WaApiRouter]
  end.

(** The request as a handler registered on [r] hands it to [addTask]. *)
Definition requestVia (r : router) (before : routeFlags) (content : string)
  : httpReq :=
  HttpReq (flag_isApiRoute (foldl (λ f r', stamp r' f) before (routersTo r)))
    content.

(** [handleRequest] on any value: the two tests of the source in order. *)
Definition handleRequestJs `{Collaborators} (m : appModule)
    (handlerPath : jsValue)
  : jsError + (httpReq → N → WorkerManager → WorkerManager) :=
  match app m with
  | None => inl (ErrorOther "app is not initialized yet")
  | Some _ =>
      if bool_decide (typeofJs handlerPath ≠ TyString)
      then inl (ErrorOther "handlerPath is not string")
      else inr (addTask (templateText handlerPath))
  end.

(** The argument of [serveApp]; a field that is absent is [undefined], and
    so are both when the argument is left out. *)
Record serveOptions := ServeOptions {
  port : jsValue;
  onServed : jsValue;
}.

Definition noOptions : serveOptions := ServeOptions JUndefined JUndefined.

(** The call [app.listen(port, callback)]: the port, and the url the
    callback passes to [onServed], if it calls it. *)
Record listenCall := Listen {
  listenPort : jsValue;
  servedUrl : option string;
}.

Definition serveApp (m : appModule) (opts : serveOptions)
  : jsError + listenCall :=
  match app m with
  | None => inl (ErrorOther "app is not initialized yet")
  | Some _ =>
      if truthy (port opts) && bool_decide (typeofJs (port opts) ≠ TyNumber)
      then inl (ErrorOther "config.port is not number")
      else if truthy (onServed opts)
              && bool_decide (typeofJs (onServed opts) ≠ TyFunction)
      then inl (ErrorOther "config.onServed is not function")
      else
        let port := if negb (truthy (port opts))
                    then JNumber (defaultPort config) else port opts in
        inr (Listen port
               (if negb (truthy (onServed opts)) then None
                else Some ("http://localhost:" +:+ templateText port +:+ "/")))
  end.

(** ** More quantities for the properties *)

(** The worker an event is about. *)
Definition target (ev : event) : option nat :=
  match ev with
  | AddTask _ _ _ => None
  | WorkerMessage w _ | WorkerError w _ | WorkerExit w _ | TimerFired w =>
      Some w
  end.

(** The settlement of a race that an event stands for, if any. *)
Definition outcomeOf (ev : event) : option (nat * (response + jsError)) :=
  match ev with
  | WorkerMessage w r => Some (w, inl r)
  | _ => prod_map id inr <$> rejection ev
  end.

(** A settlement after which the callback runs to its end. *)
Definition releases (o : response + jsError) : Prop :=
  ∀ msg, o ≠ inr (ErrorWorkerExit msg).

Definition isExitError (e : jsError) : Prop :=
  match e with ErrorWorkerExit _ => True | _ => False end.

(** The promises on which [resolve] or [reject] was called, one entry per
    call, in order. *)
Definition settledBy (e : effect) : list nat :=
  match e with
  | EResolve p _ | EReject p _ => [p]
  | _ => []
  end.

Definition settleCalls (tr : list effect) : list nat := tr ≫= settledBy.

(** The writes to [currWorker] among some effects. *)
Definition counterWrites (tr : list effect) : list Z :=
  tr ≫= λ e, match e with ECurrWorker v => [v] | _ => [] end.

(** The workers [terminate] was called on. *)
Definition terminations (tr : list effect) : list nat :=
  tr ≫= λ e, match e with ETerminate w => [w] | _ => [] end.

(** [resolve] or [reject] was called at most once for each promise, and
    only for promises nobody holds any more. *)
Definition calledOnce (s : WorkerManager) : Prop :=
  NoDup (settleCalls (trace s))
  ∧ ∀ p, p ∈ settleCalls (trace s) →
      ¬ owns p s ∧ (p < length (promises s))%nat.

(** [terminate] was called at most once for each worker, and only for
    workers whose race has settled. *)
Definition terminatedOnce (s : WorkerManager) : Prop :=
  NoDup (terminations (trace s))
  ∧ ∀ w, w ∈ terminations (trace s) →
      ∃ wk, workers s !! w = Some wk ∧ w_settled wk = true.

(** ** Lists of workers *)

Lemma inflight_mark_settled (ws : list worker) w wk :
  ws !! w = Some wk → racing wk →
  S (length (filter racing (alter mark_settled w ws)))
  = length (filter racing ws).
Proof.
  revert w. induction ws as [|x ws IH]; intros [|w] Hw Hr; simplify_eq/=.
  - rewrite filter_cons_False; [|by unfold racing].
    by rewrite filter_cons_True.
  - rewrite !filter_cons. destruct (decide (racing x)); simpl; eauto.
Qed.

Lemma inflight_mark_terminated (ws : list worker) w :
  length (filter racing (alter mark_terminated w ws))
  = length (filter racing ws).
Proof.
  revert w. induction ws as [|x ws IH]; intros [|w]; simpl; auto.
  - rewrite !filter_cons.
    destruct (decide (racing x)) as [Hx|Hx], (decide (racing (mark_terminated x)));
      simpl; auto; exfalso; unfold racing in *; simpl in *; congruence.
  - rewrite !filter_cons. destruct (decide (racing x)); simpl;
      first [apply IH | f_equal; apply IH].
Qed.

Lemma fmap_alter_same {B} (g : worker → B) (f : worker → worker)
    (ws : list worker) w :
  (∀ x, g (f x) = g x) → g <$> alter f w ws = g <$> ws.
Proof.
  intros Hf. revert w.
  induction ws as [|x ws IH]; intros [|w]; simpl; f_equal; auto.
  apply IH.
Qed.

(** ** The promise store *)

Lemma settle_length p o ps : length (settle p o ps) = length ps.
Proof.
  unfold settle. destruct (ps !! p) as [[]|]; auto using length_insert.
Qed.

Lemma settle_other p q o ps : p ≠ q → settle p o ps !! q = ps !! q.
Proof.
  intros Hpq. unfold settle.
  destruct (ps !! p) as [[]|]; auto using list_lookup_insert_ne.
Qed.

Lemma settle_pending p o ps :
  ps !! p = Some Pending → settle p o ps !! p = Some o.
Proof.
  intros Hp. unfold settle. rewrite Hp.
  apply list_lookup_insert_eq. by eapply lookup_lt_Some.
Qed.

(** A promise that is settled keeps its value. *)
Lemma settle_stable p q o ps x :
  ps !! q = Some x → x ≠ Pending → settle p o ps !! q = Some x.
Proof.
  intros Hq Hx. destruct (decide (p = q)) as [->|Hpq].
  - unfold settle. rewrite Hq. by destruct x.
  - by rewrite settle_other.
Qed.

(** ** The invariant is kept by each primitive *)

Lemma consistent_init maxW tmo logger :
  consistent 0 (initWith maxW tmo logger).
Proof.
  split; simpl; try done; [lia|].
  intros p [(w & wk & Hw & _)|(t & Ht & _)]; simpl in *.
  - by rewrite lookup_nil in Hw.
  - by apply elem_of_nil in Ht.
Qed.

Lemma resolver_unique k s w wk :
  consistent k s → workers s !! w = Some wk →
  (∀ w' wk', workers s !! w' = Some wk' →
     w_resolver wk' = w_resolver wk → w' = w)
  ∧ (∀ t, t ∈ taskQueue s → resolver t ≠ w_resolver wk).
Proof.
  intros Hc Hw.
  assert (NoDup ((w_resolver <$> workers s) ++ (resolver <$> taskQueue s)))
    as Hnd by (rewrite (c_fifo _ _ Hc); apply NoDup_seq).
  apply NoDup_app in Hnd as (Hws & Hdisj & _).
  split.
  - intros w' wk' Hw' Heq.
    eapply (NoDup_lookup _ w' w (w_resolver wk)); eauto;
      rewrite list_lookup_fmap; [rewrite Hw'|rewrite Hw]; simpl; congruence.
  - intros t Ht Heq. apply (Hdisj (w_resolver wk)).
    + apply list_elem_of_fmap. exists wk. split; [done|].
      by eapply list_elem_of_lookup_2.
    + apply list_elem_of_fmap. exists t. by split.
Qed.

Lemma consistent_mark_settled s w wk :
  consistent 0 s → workers s !! w = Some wk → racing wk →
  let s0 := raceSettled w s in
  consistent 1 s0
  ∧ ¬ owns (w_resolver wk) s0
  ∧ promises s0 !! w_resolver wk = Some Pending.
Proof.
  intros Hc Hw Hr s0.
  destruct (resolver_unique _ _ _ _ Hc Hw) as [Huw Huq].
  assert (∀ p, owns p s0 → owns p s ∧ p ≠ w_resolver wk) as Hown.
  { intros p [(w' & wk' & Hw' & Hr' & Hp)|(t & Ht & Hp)]; simpl in *.
    - destruct (decide (w = w')) as [->|Hne].
      + rewrite list_lookup_alter_eq, Hw in Hw'. by simplify_eq/=.
      + rewrite list_lookup_alter_ne in Hw' by done. split.
        * left. eauto.
        * intros ->. by apply Hne; symmetry; eapply Huw.
    - split; [right; eauto|]. intros ->. by eapply Huq. }
  split; [split|split]; simpl.
  - pose proof (inflight_mark_settled _ _ _ Hw Hr) as Hin.
    rewrite (c_slots _ _ Hc). unfold inflight. simpl. lia.
  - apply (c_bound _ _ Hc).
  - rewrite (fmap_alter_same w_resolver) by done. apply (c_fifo _ _ Hc).
  - intros p Hp. apply (c_pending _ _ Hc), Hown, Hp.
  - apply (c_trace _ _ Hc).
  - intros Hp. by apply Hown in Hp as [_ ?].
  - apply (c_pending _ _ Hc). left. eauto.
Qed.

Lemma consistent_log k s es :
  consistent k s → Forall (counterOk (Z.max 0 (maxWorkers s))) es →
  consistent k (log es s).
Proof.
  intros [Hs Hb Hf Hp Ht] Hes. split; simpl; auto.
  apply Forall_app. auto.
Qed.

Lemma consistent_settle_promise k s p o :
  consistent k s → ¬ owns p s →
  consistent k (set_promises (settle p o (promises s)) s).
Proof.
  intros [Hs Hb Hf Hp Ht] Hfree. split; simpl; auto.
  - by rewrite settle_length.
  - intros q Hq. rewrite settle_other; [by apply Hp|].
    intros ->. by apply Hfree.
Qed.

Lemma consistent_resolve k s p r :
  consistent k s → ¬ owns p s → consistent k (resolve p r s).
Proof.
  intros Hc Hfree. unfold resolve. apply consistent_log.
  - by apply consistent_settle_promise.
  - by repeat constructor.
Qed.

Lemma consistent_reject k s p e :
  consistent k s → ¬ owns p s → consistent k (reject p e s).
Proof.
  intros Hc Hfree. unfold reject. apply consistent_log.
  - by apply consistent_settle_promise.
  - by repeat constructor.
Qed.

Lemma owns_terminate p w s : owns p (terminate w s) → owns p s.
Proof.
  intros [(w' & wk' & Hw' & Hr' & Hp)|Hq]; [|by right]. left. simpl in *.
  destruct (decide (w = w')) as [->|Hne].
  - rewrite list_lookup_alter_eq in Hw'.
    destruct (workers s !! w') as [wk|] eqn:Hw; simplify_eq/=.
    exists w', wk. by rewrite Hw.
  - rewrite list_lookup_alter_ne in Hw' by done. eauto.
Qed.

Lemma consistent_terminate k s w :
  consistent k s → consistent k (terminate w s).
Proof.
  intros Hc. pose proof Hc as [Hs Hb Hf Hp Ht]. unfold terminate.
  apply consistent_log; [|by repeat constructor].
  split; simpl; auto.
  - unfold inflight. simpl. by rewrite inflight_mark_terminated.
  - by rewrite (fmap_alter_same w_resolver).
  - intros p Hown. apply Hp, (owns_terminate p w s).
    destruct Hown as [(w' & wk' & ?)|?]; [left|right]; eauto.
Qed.

(** The decrement at the end of a race callback gives the slot back. *)
Lemma consistent_release s :
  consistent 1 s → consistent 0 (decrCurrWorker s).
Proof.
  intros [Hs Hb Hf Hp Ht]. split; simpl; auto.
  - unfold inflight in *. simpl. lia.
  - lia.
  - apply Forall_app. split; [done|]. repeat constructor; simpl; lia.
Qed.

(** A callback that throws keeps the slot: the open race it stood for is
    accounted to the unhandled rejection from then on. *)
Lemma consistent_unhandled s e :
  consistent 1 s → consistent 0 (set_unhandled (unhandled s ++ [e]) s).
Proof.
  intros [Hs Hb Hf Hp Ht]. split; simpl; auto.
  unfold inflight in *. simpl. rewrite length_app. simpl. lia.
Qed.

Lemma runNext_gate s :
  (currWorker s >=? maxWorkers s) || (length (taskQueue s) <? 1)%nat = true →
  runNext s = s.
Proof. intros Hg. unfold runNext. by rewrite Hg. Qed.

Lemma runNext_admit s t rest :
  currWorker s < maxWorkers s → taskQueue s = t :: rest →
  runNext s =
  log [ESpawn (length (workers s)) (workerDataOf t)]
    (set_workers
       (workers s ++ [Worker (workerDataOf t) (resolver t) false false])
       (log [ESetTimeout (length (workers s)) (timeoutMs s)]
          (incrCurrWorker (set_taskQueue rest s)))).
Proof.
  intros Hlt Hq. unfold runNext. rewrite Hq. simpl.
  destruct (currWorker s >=? maxWorkers s) eqn:Hge; [|done].
  apply Z.geb_le in Hge. lia.
Qed.

Lemma consistent_runNext s : consistent 0 s → consistent 0 (runNext s).
Proof.
  intros Hc.
  destruct ((currWorker s >=? maxWorkers s)
            || (length (taskQueue s) <? 1)%nat) eqn:Hg.
  { by rewrite runNext_gate. }
  apply orb_false_iff in Hg as [Hlt Hlen].
  assert (currWorker s < maxWorkers s) as Hlt'.
  { destruct (Z.geb_spec (currWorker s) (maxWorkers s)); [done|lia]. }
  destruct (taskQueue s) as [|t rest] eqn:Hq; [done|].
  rewrite (runNext_admit s t rest) by done.
  destruct Hc as [Hs Hb Hf Hp Ht]. split; simpl.
  - unfold inflight in *. simpl. rewrite filter_app, length_app.
    rewrite filter_cons_True by done. simpl. lia.
  - lia.
  - rewrite fmap_app. simpl. rewrite <- Hf, Hq, <- app_assoc. done.
  - intros p Hown. apply Hp.
    destruct Hown as [(w & wk & Hw & Hr & Hres)|(t' & Ht' & Hres)]; simpl in *.
    + apply lookup_app_Some in Hw as [Hw|[_ Hw]]; [left; eauto|].
      apply list_lookup_singleton_Some in Hw as [_ <-].
      right. exists t. rewrite Hq. split; [left|done].
    + right. exists t'. rewrite Hq. split; [by right|done].
  - rewrite <- !app_assoc. apply Forall_app. split; [done|].
    repeat constructor; simpl; lia.
Qed.

(** ** What each settlement of a race does *)

Section Races.
Context `{Collaborators}.

Lemma settleRace_idle s w o :
  (∀ wk, workers s !! w = Some wk → w_settled wk = true) →
  settleRace w o s = s.
Proof.
  intros Hw. unfold settleRace.
  destruct (workers s !! w) as [wk|]; [|done]. by rewrite (Hw wk).
Qed.

Lemma settleRace_message s w wk r :
  workers s !! w = Some wk → racing wk →
  settleRace w (inl r) s
  = runNext (decrCurrWorker (resolve (w_resolver wk) r (raceSettled w s))).
Proof. intros Hw Hr. unfold settleRace. by rewrite Hw, Hr. Qed.

Lemma settleRace_timeout s w wk msg :
  workers s !! w = Some wk → racing wk →
  settleRace w (inr (ErrorRequestTimeout msg)) s
  = runNext (decrCurrWorker
      (resolve (w_resolver wk)
         (if wd_isApiResource (w_data wk)
          then toHttpApiResponse (ErrorRequestTimeout msg)
          else toHttpResponse (ErrorRequestTimeout msg))
         (terminate w (raceSettled w s)))).
Proof.
  intros Hw Hr. unfold settleRace. rewrite Hw, Hr.
  unfold then_catch, onRaceRejected, andThen, exec.
  by destruct (wd_isApiResource (w_data wk)).
Qed.

Lemma settleRace_exit s w wk msg :
  workers s !! w = Some wk → racing wk →
  settleRace w (inr (ErrorWorkerExit msg)) s
  = set_unhandled (unhandled s ++ [ErrorWorkerExit msg])
      (log [EThrow (ErrorWorkerExit msg)] (terminate w (raceSettled w s))).
Proof. intros Hw Hr. unfold settleRace. by rewrite Hw, Hr. Qed.

Lemma settleRace_other s w wk msg :
  workers s !! w = Some wk → racing wk →
  settleRace w (inr (ErrorOther msg)) s
  = runNext (decrCurrWorker
      (reject (w_resolver wk) (ErrorOther msg)
         (terminate w (raceSettled w s)))).
Proof. intros Hw Hr. unfold settleRace. by rewrite Hw, Hr. Qed.

Lemma consistent_settleRace s w o :
  consistent 0 s → consistent 0 (settleRace w o s).
Proof.
  intros Hc.
  destruct (workers s !! w) as [wk|] eqn:Hw;
    [|by rewrite settleRace_idle by (intros ?; congruence)].
  destruct (w_settled wk) eqn:Hr;
    [by rewrite settleRace_idle by (intros ?; congruence)|].
  destruct (consistent_mark_settled s w wk Hc Hw Hr) as (Hc1 & Hfree & _).
  assert (¬ owns (w_resolver wk) (terminate w (raceSettled w s))) as Hfree'
    by (intros Hown; by apply Hfree, (owns_terminate _ w)).
  destruct o as [r|[msg|msg|msg]].
  - rewrite (settleRace_message s w wk) by done.
    by apply consistent_runNext, consistent_release, consistent_resolve.
  - rewrite (settleRace_timeout s w wk) by done.
    apply consistent_runNext, consistent_release, consistent_resolve;
      [by apply consistent_terminate|done].
  - rewrite (settleRace_exit s w wk) by done.
    apply (consistent_unhandled
             (log [EThrow (ErrorWorkerExit msg)] (terminate w (raceSettled w s)))).
    apply consistent_log; [by apply consistent_terminate|by repeat constructor].
  - rewrite (settleRace_other s w wk) by done.
    apply consistent_runNext, consistent_release, consistent_reject;
      [by apply consistent_terminate|done].
Qed.

Lemma consistent_addTask s handlerPath req dateTime :
  consistent 0 s → consistent 0 (addTask handlerPath req dateTime s).
Proof.
  intros [Hs Hb Hf Hp Ht]. unfold addTask. apply consistent_runNext.
  split; simpl; auto.
  - rewrite fmap_app, app_assoc, Hf, length_app. simpl.
    by rewrite seq_app.
  - intros p [(w & wk & Hw & Hr & Hres)|(t & Hin & Hres)]; simpl in *.
    + rewrite lookup_app_l.
      * apply Hp. left. eauto.
      * apply lookup_lt_is_Some. eexists. apply Hp. left. eauto.
    + apply elem_of_app in Hin as [Hin|Hin].
      * rewrite lookup_app_l.
        -- apply Hp. right. eauto.
        -- apply lookup_lt_is_Some. eexists. apply Hp. right. eauto.
      * apply list_elem_of_singleton in Hin as ->. simpl in Hres. subst p.
        by rewrite lookup_app_r, Nat.sub_diag.
Qed.

Lemma consistent_step s ev : consistent 0 s → consistent 0 (step s ev).
Proof.
  intros Hc. destruct ev as [hp req dt|w r|w err|w code|w]; simpl;
    auto using consistent_addTask, consistent_settleRace.
  destruct (negb (code =? 0)); auto using consistent_settleRace.
Qed.

Lemma consistent_run evs s : consistent 0 s → consistent 0 (run evs s).
Proof.
  revert s. induction evs as [|ev evs IH]; intros s Hc; [done|].
  apply IH, consistent_step, Hc.
Qed.

End Races.

(** ** What the operations leave alone *)

Lemma runNext_frame s :
  maxWorkers (runNext s) = maxWorkers s
  ∧ promises (runNext s) = promises s
  ∧ unhandled (runNext s) = unhandled s
  ∧ entries (runNext s) = entries s
  ∧ ∃ rest, trace (runNext s) = trace s ++ rest.
Proof.
  unfold runNext.
  destruct ((currWorker s >=? maxWorkers s) || (length (taskQueue s) <? 1)%nat);
    [by repeat split; exists []; rewrite app_nil_r|].
  destruct (taskQueue s) as [|t rest] eqn:Hq;
    [by repeat split; exists []; rewrite app_nil_r|].
  repeat split; simpl.
  - unfold entries. simpl. by rewrite Hq, fmap_app, <- app_assoc.
  - eexists. by rewrite <- !app_assoc.
Qed.

Lemma entries_raceSettled w s : entries (raceSettled w s) = entries s.
Proof.
  unfold entries. simpl.
  by rewrite (fmap_alter_same (λ wk, (w_resolver wk, w_data wk))).
Qed.

Lemma entries_terminate w s : entries (terminate w s) = entries s.
Proof.
  unfold entries. simpl.
  by rewrite (fmap_alter_same (λ wk, (w_resolver wk, w_data wk))).
Qed.

Section Frames.
Context `{Collaborators}.

Lemma settleRace_frame s w o :
  maxWorkers (settleRace w o s) = maxWorkers s
  ∧ entries (settleRace w o s) = entries s
  ∧ length (promises (settleRace w o s)) = length (promises s).
Proof.
  destruct (workers s !! w) as [wk|] eqn:Hw;
    [|by rewrite settleRace_idle by (intros ?; congruence)].
  destruct (w_settled wk) eqn:Hr;
    [by rewrite settleRace_idle by (intros ?; congruence)|].
  destruct o as [r|[msg|msg|msg]].
  - rewrite (settleRace_message s w wk) by done.
    destruct (runNext_frame
      (decrCurrWorker (resolve (w_resolver wk) r (raceSettled w s))))
      as (-> & -> & _ & -> & _).
    repeat split; simpl; [apply entries_raceSettled|apply settle_length].
  - rewrite (settleRace_timeout s w wk) by done.
    match goal with |- context [runNext ?x] =>
      destruct (runNext_frame x) as (-> & -> & _ & -> & _) end.
    repeat split; simpl; [|apply settle_length].
    etrans; [apply (entries_terminate w (raceSettled w s))|].
    apply entries_raceSettled.
  - rewrite (settleRace_exit s w wk) by done.
    repeat split; simpl.
    etrans; [apply (entries_terminate w (raceSettled w s))|].
    apply entries_raceSettled.
  - rewrite (settleRace_other s w wk) by done.
    match goal with |- context [runNext ?x] =>
      destruct (runNext_frame x) as (-> & -> & _ & -> & _) end.
    repeat split; simpl; [|apply settle_length].
    etrans; [apply (entries_terminate w (raceSettled w s))|].
    apply entries_raceSettled.
Qed.

Lemma addTask_frame s handlerPath req dateTime :
  let wd := {| wd_queueId := createQueueId s dateTime;
               wd_useLogger := useLogger s;
               wd_isApiResource := isApiRoute req;
               wd_handlerPath := joinHandlerDir handlerPath;
               wd_request := serializeHttpReq req |} in
  maxWorkers (addTask handlerPath req dateTime s) = maxWorkers s
  ∧ entries (addTask handlerPath req dateTime s)
    = entries s ++ [(length (promises s), wd)]
  ∧ promises (addTask handlerPath req dateTime s) = promises s ++ [Pending].
Proof.
  intros wd. unfold addTask.
  match goal with |- context [runNext ?x] =>
    destruct (runNext_frame x) as (-> & -> & _ & -> & _) end.
  repeat split. unfold entries. simpl. by rewrite fmap_app, app_assoc.
Qed.

Lemma maxWorkers_step s ev : maxWorkers (step s ev) = maxWorkers s.
Proof.
  destruct ev as [hp req dt|w r|w err|w code|w]; simpl;
    try apply settleRace_frame.
  - apply addTask_frame.
  - destruct (negb (code =? 0)); [apply settleRace_frame|done].
Qed.

Lemma run_cons ev evs s : run (ev :: evs) s = run evs (step s ev).
Proof. done. Qed.

Lemma run_app evs1 evs2 s : run (evs1 ++ evs2) s = run evs2 (run evs1 s).
Proof. apply foldl_app. Qed.

Lemma maxWorkers_run evs s : maxWorkers (run evs s) = maxWorkers s.
Proof.
  revert s. induction evs as [|ev evs IH]; intros s; [done|].
  by rewrite run_cons, IH, maxWorkers_step.
Qed.

End Frames.

(** ** Entries are only ever appended *)

Section Order.
Context `{Collaborators}.

Lemma entries_step s ev :
  (fst <$> entries (step s ev)
   = (fst <$> entries s) ++ seq (length (promises s)) (length (submitted [ev])))
  ∧ ((payload ∘ snd) <$> entries (step s ev)
     = ((payload ∘ snd) <$> entries s) ++ (payloadOf <$> submitted [ev]))
  ∧ length (promises (step s ev))
    = (length (promises s) + length (submitted [ev]))%nat.
Proof.
  destruct ev as [hp req dt|w r|w err|w code|w]; simpl.
  - destruct (addTask_frame s hp req dt) as (_ & -> & ->).
    rewrite !fmap_app, length_app. done.
  - destruct (settleRace_frame s w (inl r)) as (_ & -> & ->).
    by rewrite !app_nil_r, Nat.add_0_r.
  - destruct (settleRace_frame s w (inr err)) as (_ & -> & ->).
    by rewrite !app_nil_r, Nat.add_0_r.
  - destruct (negb (code =? 0)).
    + destruct (settleRace_frame s w (inr (exitError code))) as (_ & -> & ->).
      by rewrite !app_nil_r, Nat.add_0_r.
    + by rewrite !app_nil_r, Nat.add_0_r.
  - destruct (settleRace_frame s w (inr timeoutError)) as (_ & -> & ->).
    by rewrite !app_nil_r, Nat.add_0_r.
Qed.

Lemma submitted_cons ev evs : submitted (ev :: evs) = submitted [ev] ++ submitted evs.
Proof. unfold submitted. simpl. by rewrite app_nil_r. Qed.

Lemma entries_run evs s :
  (fst <$> entries (run evs s)
   = (fst <$> entries s) ++ seq (length (promises s)) (length (submitted evs)))
  ∧ ((payload ∘ snd) <$> entries (run evs s)
     = ((payload ∘ snd) <$> entries s) ++ (payloadOf <$> submitted evs))
  ∧ length (promises (run evs s))
    = (length (promises s) + length (submitted evs))%nat.
Proof.
  revert s. induction evs as [|ev evs IH]; intros s.
  { simpl. by rewrite !app_nil_r, Nat.add_0_r. }
  rewrite run_cons, submitted_cons.
  destruct (IH (step s ev)) as (-> & -> & ->).
  destruct (entries_step s ev) as (-> & -> & ->).
  rewrite fmap_app, !length_app, seq_app, <- !app_assoc.
  repeat split; lia.
Qed.

Lemma entries_resolvers s :
  fst <$> entries s = (w_resolver <$> workers s) ++ (resolver <$> taskQueue s).
Proof. unfold entries. by rewrite fmap_app, <- !list_fmap_compose. Qed.

Lemma entries_payloads s :
  (payload ∘ snd) <$> entries s
  = ((payload ∘ w_data) <$> workers s)
    ++ ((payload ∘ workerDataOf) <$> taskQueue s).
Proof. unfold entries. by rewrite fmap_app, <- !list_fmap_compose. Qed.

End Order.

(** ** With no slot at all nothing ever starts *)

Lemma starved_step `{Collaborators} s ev : starved s → starved (step s ev).
Proof.
  intros (Hm & Hc & Hw & Hp & Ht & Hu).
  assert (∀ w o, settleRace w o s = s) as Hidle.
  { intros w o. apply settleRace_idle. intros wk. by rewrite Hw, lookup_nil. }
  destruct ev as [hp req dt|w r|w err|w code|w]; simpl; rewrite ?Hidle;
    try done.
  - unfold addTask. rewrite runNext_gate by (simpl; by rewrite Hc, Hm).
    repeat split; simpl; auto. apply Forall_app. by repeat constructor.
  - by destruct (negb (code =? 0)).
Qed.

Lemma starved_run `{Collaborators} evs s : starved s → starved (run evs s).
Proof.
  revert s. induction evs as [|ev evs IH]; intros s Hs; [done|].
  rewrite run_cons. by apply IH, starved_step.
Qed.

(** ** The admission bound *)

(** C1: whatever calls of [addTask] and worker or timer events arrive, the
    counter [currWorker] stays between 0 and [maxWorkers], every value ever
    written to it does too, and the number of execution units whose race is
    still open never exceeds the counter, hence never exceeds [maxWorkers]. *)
Theorem C1_admission_bound `{Collaborators}
    (maxW tmo : Z) (logger : bool) (evs : list event) :
  0 ≤ maxW →
  let s := run evs (initWith maxW tmo logger) in
  maxWorkers s = maxW
  ∧ 0 ≤ currWorker s ≤ maxW
  ∧ Z.of_nat (inflight s) ≤ currWorker s
  ∧ Forall (counterOk maxW) (trace s).
Proof.
  intros Hm s.
  assert (maxWorkers s = maxW) as Hmax by apply maxWorkers_run.
  destruct (consistent_run evs _ (consistent_init maxW tmo logger))
    as [Hs Hb _ _ Ht].
  fold s in Hs, Hb, Ht. rewrite Hmax, Z.max_r in * by done.
  repeat split; try done; lia.
Qed.

Lemma C1_admission_bound_witness :
  0 ≤ 2
  ∧ let s := demoRun 2 [AddTask "a" apiReq 5%N; AddTask "b" webReq 6%N;
                        AddTask "c" apiReq 7%N;
                        WorkerMessage 0 (Response true 200 "ok");
                        TimerFired 1; WorkerExit 2 1] in
    maxWorkers s = 2
    ∧ 0 ≤ currWorker s ≤ 2
    ∧ Z.of_nat (inflight s) ≤ currWorker s
    ∧ Forall (counterOk 2) (trace s).
Proof.
  split; [lia|].
  apply (C1_admission_bound (H := demoCollaborators) 2 10000 false). lia.
Defined.

(** ** First in, first out *)

(** C3: at every moment the promises of the admitted tasks, in the order of
    their admission, followed by those still queued, from the head of the
    queue, are exactly the submissions in the order they were made, each
    once; and the descriptors carry the handler and the request of the
    submission at the same position. So tasks leave the queue in the order
    they entered it, none twice and none overtaking another. *)
Theorem C3_fifo_admission `{Collaborators}
    (maxW tmo : Z) (logger : bool) (evs : list event) :
  let s := run evs (initWith maxW tmo logger) in
  (w_resolver <$> workers s) ++ (resolver <$> taskQueue s)
  = seq 0 (length (submitted evs))
  ∧ ((payload ∘ w_data) <$> workers s)
    ++ ((payload ∘ workerDataOf) <$> taskQueue s)
    = payloadOf <$> submitted evs.
Proof.
  intros s.
  destruct (entries_run evs (initWith maxW tmo logger)) as (Hr & Hp & _).
  fold s in Hr, Hp. by rewrite <- entries_resolvers, <- entries_payloads.
Qed.

(** ** The admission gate *)

(** C7: [runNext] returns its state unchanged, so it starts no worker and
    logs no effect, as soon as [currWorker >= maxWorkers] or the queue is
    empty; and with [maxWorkers = 0] no event ever starts a worker: every
    submission stays in the queue, in order, with its promise pending and
    nothing thrown. *)
Theorem C7_gate_noop `{Collaborators} (s : WorkerManager)
    (tmo : Z) (logger : bool) (evs : list event) :
  (currWorker s >= maxWorkers s ∨ taskQueue s = [] → runNext s = s)
  ∧ let s0 := run evs (initWith 0 tmo logger) in
    workers s0 = [] ∧ currWorker s0 = 0
    ∧ resolver <$> taskQueue s0 = seq 0 (length (submitted evs))
    ∧ length (promises s0) = length (submitted evs)
    ∧ Forall (λ o, o = Pending) (promises s0)
    ∧ trace s0 = [] ∧ unhandled s0 = [].
Proof.
  split.
  - intros Hg. apply runNext_gate. apply orb_true_iff.
    destruct Hg as [Hg| ->]; [left|by right].
    apply Z.geb_le. lia.
  - intros s0.
    assert (starved s0) as (_ & Hc & Hw & Hp & Ht & Hu)
      by (by apply starved_run; repeat split).
    destruct (entries_run evs (initWith 0 tmo logger)) as (Hf & _ & Hl).
    fold s0 in Hf, Hl. rewrite entries_resolvers, Hw in Hf. done.
Qed.

Lemma C7_gate_noop_witness :
  let s := demoRun 1 [AddTask "a" apiReq 5%N; AddTask "b" webReq 6%N] in
  (currWorker s >= maxWorkers s ∨ taskQueue s = []) ∧ runNext s = s.
Proof.
  intros s.
  assert (currWorker s >= maxWorkers s ∨ taskQueue s = []) as Hg
    by (left; vm_compute; discriminate).
  split; [exact Hg|].
  exact (proj1 (C7_gate_noop (H := demoCollaborators) s 10000 false []) Hg).
Defined.

(** ** Formatting of the response *)

(** C8: a fulfilled outcome is answered with its [httpCode] as status, and
    with its [data] sent through [json] when [isApiResource] is true and
    through [send] when it is false. *)
Theorem C8_format_split (code : Z) (body : string) (r : response) :
  respond (Fulfilled (Response true code body))
  = [ResStatus code; ResJson body]
  ∧ respond (Fulfilled (Response false code body))
    = [ResStatus code; ResSend body]
  ∧ respond (Fulfilled r)
    = [ResStatus (httpCode r);
       if isApiResource r then ResJson (data r) else ResSend (data r)].
Proof. repeat split. by destruct r as [[] ? ?]. Qed.

(** ** Who can still settle a promise *)

Lemma owns_raceSettled p w s : owns p (raceSettled w s) → owns p s.
Proof.
  intros [(w' & wk' & Hw' & Hr' & Hp)|Hq]; [|by right]. left. simpl in *.
  destruct (decide (w = w')) as [->|Hne].
  - rewrite list_lookup_alter_eq in Hw'.
    destruct (workers s !! w') as [wk|] eqn:Hw; by simplify_eq/=.
  - rewrite list_lookup_alter_ne in Hw' by done. eauto.
Qed.

Lemma owns_runNext p s : owns p (runNext s) → owns p s.
Proof.
  unfold runNext.
  destruct ((currWorker s >=? maxWorkers s) || (length (taskQueue s) <? 1)%nat);
    [done|].
  destruct (taskQueue s) as [|t rest] eqn:Hq; [done|].
  intros [(w & wk & Hw & Hr & Hres)|(t' & Ht' & Hres)]; simpl in *.
  - apply lookup_app_Some in Hw as [Hw|[_ Hw]]; [left; eauto|].
    apply list_lookup_singleton_Some in Hw as [_ <-].
    right. exists t. rewrite Hq. split; [left|done].
  - right. exists t'. rewrite Hq. split; [by right|done].
Qed.

Lemma runNext_workers s : ∃ new, workers (runNext s) = workers s ++ new.
Proof.
  unfold runNext.
  destruct ((currWorker s >=? maxWorkers s) || (length (taskQueue s) <? 1)%nat);
    [by exists []; rewrite app_nil_r|].
  destruct (taskQueue s) as [|t rest];
    [by exists []; rewrite app_nil_r|].
  by eexists.
Qed.

Section Settlement.
Context `{Collaborators}.

(** A race settles at most the promise of its own worker. *)
Lemma promises_settleRace s w o :
  promises (settleRace w o s) = promises s
  ∨ ∃ wk o', workers s !! w = Some wk ∧ racing wk
      ∧ promises (settleRace w o s) = settle (w_resolver wk) o' (promises s).
Proof.
  destruct (workers s !! w) as [wk|] eqn:Hw;
    [|by left; rewrite settleRace_idle by (intros ?; congruence)].
  destruct (w_settled wk) eqn:Hr;
    [by left; rewrite settleRace_idle by (intros ?; congruence)|].
  destruct o as [r|[msg|msg|msg]].
  - rewrite (settleRace_message s w wk) by done.
    match goal with |- context [runNext ?x] =>
      destruct (runNext_frame x) as (_ & -> & _) end.
    right. by exists wk, (Fulfilled r).
  - rewrite (settleRace_timeout s w wk) by done.
    match goal with |- context [runNext ?x] =>
      destruct (runNext_frame x) as (_ & -> & _) end.
    right. by eexists wk, (Fulfilled _).
  - rewrite (settleRace_exit s w wk) by done. by left.
  - rewrite (settleRace_other s w wk) by done.
    match goal with |- context [runNext ?x] =>
      destruct (runNext_frame x) as (_ & -> & _) end.
    right. by eexists wk, (Rejected _).
Qed.

Lemma owns_settleRace p s w o : owns p (settleRace w o s) → owns p s.
Proof.
  destruct (workers s !! w) as [wk|] eqn:Hw;
    [|by rewrite settleRace_idle by (intros ?; congruence)].
  destruct (w_settled wk) eqn:Hr;
    [by rewrite settleRace_idle by (intros ?; congruence)|].
  destruct o as [r|[msg|msg|msg]].
  - rewrite (settleRace_message s w wk) by done.
    intros Hown%owns_runNext. by apply (owns_raceSettled p w).
  - rewrite (settleRace_timeout s w wk) by done.
    intros Hown%owns_runNext.
    by apply (owns_raceSettled p w), (owns_terminate p w).
  - rewrite (settleRace_exit s w wk) by done. intros Hown.
    by apply (owns_raceSettled p w), (owns_terminate p w).
  - rewrite (settleRace_other s w wk) by done.
    intros Hown%owns_runNext.
    by apply (owns_raceSettled p w), (owns_terminate p w).
Qed.

Lemma owns_addTask p s handlerPath req dateTime :
  owns p (addTask handlerPath req dateTime s) →
  owns p s ∨ p = length (promises s).
Proof.
  unfold addTask. intros Hown%owns_runNext.
  destruct Hown as [(w & wk & ?)|(t & Hin & Hres)]; simpl in *.
  - left. left. eauto.
  - apply elem_of_app in Hin as [Hin|Hin].
    + left. right. eauto.
    + apply list_elem_of_singleton in Hin as ->. by right.
Qed.

(** A settled promise keeps its value through every event. *)
Lemma settled_step s ev p x :
  promises s !! p = Some x → x ≠ Pending →
  promises (step s ev) !! p = Some x.
Proof.
  intros Hp Hx.
  assert (∀ w o, promises (settleRace w o s) !! p = Some x) as Hrace.
  { intros w o.
    destruct (promises_settleRace s w o) as [->|(wk & o' & _ & _ & ->)];
      [done|by apply settle_stable]. }
  destruct ev as [hp req dt|w r|w err|w code|w]; simpl; auto.
  - destruct (addTask_frame s hp req dt) as (_ & _ & ->).
    by apply lookup_app_l_Some.
  - destruct (negb (code =? 0)); auto.
Qed.

Lemma settled_run evs s p x :
  promises s !! p = Some x → x ≠ Pending →
  promises (run evs s) !! p = Some x.
Proof.
  revert s. induction evs as [|ev evs IH]; intros s Hp Hx; [done|].
  rewrite run_cons. apply IH; [|done]. by apply settled_step.
Qed.

(** A pending promise that nobody holds stays pending through every event. *)
Lemma orphan_step s ev p :
  promises s !! p = Some Pending → ¬ owns p s →
  promises (step s ev) !! p = Some Pending ∧ ¬ owns p (step s ev).
Proof.
  intros Hp Hfree.
  assert (∀ w o, promises (settleRace w o s) !! p = Some Pending
                 ∧ ¬ owns p (settleRace w o s)) as Hrace.
  { intros w o. split; [|by intros Hown%owns_settleRace].
    destruct (promises_settleRace s w o) as [->|(wk & o' & Hw & Hr & ->)];
      [done|].
    rewrite settle_other; [done|]. intros <-. apply Hfree. left. eauto. }
  destruct ev as [hp req dt|w r|w err|w code|w]; simpl; auto.
  - split.
    + destruct (addTask_frame s hp req dt) as (_ & _ & ->).
      by apply lookup_app_l_Some.
    + intros [Hown| ->]%owns_addTask; [done|].
      apply lookup_lt_Some in Hp. lia.
  - destruct (negb (code =? 0)); auto.
Qed.

Lemma orphan_run evs s p :
  promises s !! p = Some Pending → ¬ owns p s →
  promises (run evs s) !! p = Some Pending.
Proof.
  revert s. induction evs as [|ev evs IH]; intros s Hp Hfree; [done|].
  rewrite run_cons. by apply IH; apply orphan_step.
Qed.

End Settlement.

(** ** Rejected races *)

Section Outcomes.
Context `{Collaborators}.

Lemma step_rejection s ev w err :
  rejection ev = Some (w, err) → step s ev = settleRace w (inr err) s.
Proof.
  destruct ev as [hp req dt|w' r|w' err'|w' code|w']; simpl; try done.
  - by intros [= -> ->].
  - destruct (negb (code =? 0)); [by intros [= -> <-]|done].
  - by intros [= -> <-].
Qed.

(** The [catch] callback starts with [terminate], whatever the error is. *)
Lemma rejected_race s w wk err :
  workers s !! w = Some wk → racing wk →
  workers (settleRace w (inr err) s) !! w
  = Some (mark_terminated (mark_settled wk))
  ∧ ∃ rest, trace (settleRace w (inr err) s)
            = trace s ++ ETerminate w :: classified wk err :: rest.
Proof.
  intros Hw Hr.
  assert (workers (terminate w (raceSettled w s)) !! w
          = Some (mark_terminated (mark_settled wk))) as Hterm.
  { simpl. by rewrite !list_lookup_alter_eq, Hw. }
  destruct err as [msg|msg|msg].
  - rewrite (settleRace_timeout s w wk) by done.
    match goal with |- context [runNext ?x] =>
      destruct (runNext_frame x) as (_ & _ & _ & _ & rest & ->);
      destruct (runNext_workers x) as (new & ->) end.
    split; [by apply lookup_app_l_Some|].
    exists (ECurrWorker (currWorker s - 1) :: rest).
    simpl. by rewrite <- !app_assoc.
  - rewrite (settleRace_exit s w wk) by done.
    split; [done|]. exists []. simpl. by rewrite <- !app_assoc.
  - rewrite (settleRace_other s w wk) by done.
    match goal with |- context [runNext ?x] =>
      destruct (runNext_frame x) as (_ & _ & _ & _ & rest & ->);
      destruct (runNext_workers x) as (new & ->) end.
    split; [by apply lookup_app_l_Some|].
    exists (ECurrWorker (currWorker s - 1) :: rest).
    simpl. by rewrite <- !app_assoc.
Qed.

(** In a state the event loop can reach, an open race still has its caller
    waiting, and nobody else holds that promise. *)
Lemma racing_pending maxW tmo logger evs w wk :
  let s := run evs (initWith maxW tmo logger) in
  workers s !! w = Some wk → racing wk →
  consistent 0 s
  ∧ promises s !! w_resolver wk = Some Pending
  ∧ ¬ owns (w_resolver wk) (terminate w (raceSettled w s)).
Proof.
  intros s Hw Hr.
  assert (consistent 0 s) as Hc by apply consistent_run, consistent_init.
  destruct (consistent_mark_settled s w wk Hc Hw Hr) as (_ & Hfree & Hp).
  split; [done|]. split; [done|].
  intros Hown. by apply Hfree, (owns_terminate _ w).
Qed.

End Outcomes.

(** A message on an open race reaches the caller as it is. *)
Lemma message_reaches_caller `{Collaborators}
    (maxW tmo : Z) (logger : bool) (evs : list event)
    (w : nat) (wk : worker) (r : response) :
  let s := run evs (initWith maxW tmo logger) in
  workers s !! w = Some wk → racing wk →
  promises (step s (WorkerMessage w r)) !! w_resolver wk = Some (Fulfilled r).
Proof.
  intros s Hw Hr.
  destruct (racing_pending maxW tmo logger evs w wk Hw Hr) as (_ & Hp & _).
  fold s in Hp. simpl. rewrite (settleRace_message s w wk) by done.
  match goal with |- context [runNext ?x] =>
    destruct (runNext_frame x) as (_ & -> & _) end.
  simpl. by apply settle_pending.
Qed.

(** ** Timeout *)

(** C4: when the timer of an open race fires, the worker is terminated and
    the promise of the caller is fulfilled, not rejected, with the answer
    [toHttpApiResponse] builds when the task is an API resource and with the
    answer [toHttpResponse] builds when it is not; nothing is thrown, and no
    later event changes that outcome. *)
Theorem C4_timeout_resolves `{Collaborators}
    (maxW tmo : Z) (logger : bool) (evs evs' : list event)
    (w : nat) (wk : worker) :
  let s := run evs (initWith maxW tmo logger) in
  workers s !! w = Some wk → racing wk →
  let s' := step s (TimerFired w) in
  let answer := if wd_isApiResource (w_data wk)
                then toHttpApiResponse timeoutError
                else toHttpResponse timeoutError in
  (∃ wk', workers s' !! w = Some wk' ∧ w_terminated wk' = true)
  ∧ (∃ rest, trace s' = trace s ++ ETerminate w
                          :: EResolve (w_resolver wk) answer :: rest)
  ∧ promises s' !! w_resolver wk = Some (Fulfilled answer)
  ∧ unhandled s' = unhandled s
  ∧ promises (run evs' s') !! w_resolver wk = Some (Fulfilled answer).
Proof.
  intros s Hw Hr s' answer.
  destruct (racing_pending maxW tmo logger evs w wk Hw Hr) as (_ & Hp & _).
  fold s in Hp.
  destruct (rejected_race s w wk timeoutError Hw Hr) as (Hterm & Htrace).
  assert (promises s' !! w_resolver wk = Some (Fulfilled answer)
          ∧ unhandled s' = unhandled s) as [Hful Hun].
  { unfold s'. simpl. unfold timeoutError.
    rewrite (settleRace_timeout s w wk) by done.
    match goal with |- context [runNext ?x] =>
      destruct (runNext_frame x) as (_ & -> & -> & _) end.
    simpl. split; [|done]. by apply settle_pending. }
  repeat split; try done.
  - eexists. split; [apply Hterm|done].
  - by apply settled_run.
Qed.

Lemma C4_timeout_resolves_witness :
  workers demoState !! 0%nat = Some demoWorkerA ∧ racing demoWorkerA
  ∧ promises (step (H := demoCollaborators) demoState (TimerFired 0)) !! 0%nat
    = Some (Fulfilled (Response true 408 "{error:true,code:408}")).
Proof.
  assert (workers demoState !! 0%nat = Some demoWorkerA) as Hw
    by (vm_compute; reflexivity).
  assert (racing demoWorkerA) as Hr by (vm_compute; reflexivity).
  split; [exact Hw|]. split; [exact Hr|].
  pose proof (C4_timeout_resolves (H := demoCollaborators)
                1 10000 false demoQueue [] 0 demoWorkerA Hw Hr)
    as (_ & _ & Hful & _).
  exact Hful.
Defined.

(** ** Abnormal exit *)

(** C5: when the worker of an open race exits with a non-zero code, the
    [catch] callback terminates the worker and throws the [ErrorWorkerExit]
    again: the error becomes an unhandled rejection, [resolve] and [reject]
    are not called, no promise changes, and the promise of the caller stays
    pending through every later event. *)
Theorem C5_abnormal_exit_escapes `{Collaborators}
    (maxW tmo : Z) (logger : bool) (evs evs' : list event)
    (w : nat) (wk : worker) (code : Z) :
  let s := run evs (initWith maxW tmo logger) in
  workers s !! w = Some wk → racing wk → code ≠ 0 →
  let s' := step s (WorkerExit w code) in
  trace s' = trace s ++ [ETerminate w; EThrow (exitError code)]
  ∧ unhandled s' = unhandled s ++ [exitError code]
  ∧ promises s' = promises s
  ∧ promises (run evs' s') !! w_resolver wk = Some Pending.
Proof.
  intros s Hw Hr Hcode s'.
  destruct (racing_pending maxW tmo logger evs w wk Hw Hr) as (_ & Hp & Hfree).
  fold s in Hp, Hfree.
  assert (s' = set_unhandled (unhandled s ++ [exitError code])
                 (log [EThrow (exitError code)] (terminate w (raceSettled w s))))
    as Hs'.
  { unfold s'. simpl. destruct (Z.eqb_spec code 0) as [?|_]; [done|]. simpl.
    by apply (settleRace_exit s w wk). }
  rewrite Hs'. repeat split; simpl.
  - by rewrite <- app_assoc.
  - rewrite <- Hs'. apply orphan_run; rewrite Hs'; [done|].
    intros Hown. apply Hfree.
    destruct Hown as [(w' & wk' & ?)|?]; [left|right]; eauto.
Qed.

Lemma C5_abnormal_exit_escapes_witness :
  workers demoState !! 0%nat = Some demoWorkerA ∧ racing demoWorkerA ∧ 1 ≠ 0
  ∧ unhandled (step (H := demoCollaborators) demoState (WorkerExit 0 1))
    = [ErrorWorkerExit "worker stopped with exit code 1"]
  ∧ promises (step (H := demoCollaborators) demoState (WorkerExit 0 1)) !! 0%nat
    = Some Pending.
Proof.
  assert (workers demoState !! 0%nat = Some demoWorkerA) as Hw
    by (vm_compute; reflexivity).
  assert (racing demoWorkerA) as Hr by (vm_compute; reflexivity).
  assert (1 ≠ 0) as Hcode by lia.
  split; [exact Hw|]. split; [exact Hr|]. split; [exact Hcode|].
  pose proof (C5_abnormal_exit_escapes (H := demoCollaborators)
                1 10000 false demoQueue [] 0 demoWorkerA 1 Hw Hr Hcode)
    as (_ & Hun & _ & Hpend).
  vm_compute in Hun, Hpend. vm_compute. split; [exact Hun|exact Hpend].
Defined.

(** ** Application error *)

(** C6: when the worker of an open race emits an error that is neither a
    timeout nor an abnormal exit, the promise of the caller is rejected with
    that very error and keeps it, nothing is thrown, the slot is given back,
    and the head of the queue, if there is one, is admitted in the same
    step. *)
Theorem C6_application_error_rejects `{Collaborators}
    (maxW tmo : Z) (logger : bool) (evs evs' : list event)
    (w : nat) (wk : worker) (msg : string) :
  let s := run evs (initWith maxW tmo logger) in
  workers s !! w = Some wk → racing wk →
  let s' := step s (WorkerError w (ErrorOther msg)) in
  promises s' !! w_resolver wk = Some (Rejected (ErrorOther msg))
  ∧ promises (run evs' s') !! w_resolver wk = Some (Rejected (ErrorOther msg))
  ∧ unhandled s' = unhandled s
  ∧ match taskQueue s with
    | [] => taskQueue s' = [] ∧ currWorker s' = currWorker s - 1
    | t :: rest =>
        taskQueue s' = rest ∧ currWorker s' = currWorker s
        ∧ workers s' !! length (workers s)
          = Some (Worker (workerDataOf t) (resolver t) false false)
    end.
Proof.
  intros s Hw Hr s'.
  destruct (racing_pending maxW tmo logger evs w wk Hw Hr) as (Hc & Hp & _).
  fold s in Hc, Hp.
  set (x := decrCurrWorker
              (reject (w_resolver wk) (ErrorOther msg)
                 (terminate w (raceSettled w s)))).
  assert (s' = runNext x) as Hs' by (by apply (settleRace_other s w wk)).
  assert (promises s' !! w_resolver wk = Some (Rejected (ErrorOther msg)))
    as Hrej.
  { rewrite Hs'. destruct (runNext_frame x) as (_ & -> & _).
    simpl. by apply settle_pending. }
  split; [done|]. split; [by apply settled_run|]. split.
  { rewrite Hs'. by destruct (runNext_frame x) as (_ & _ & -> & _). }
  destruct (taskQueue s) as [|t rest] eqn:Hq.
  - rewrite Hs', runNext_gate; [done|].
    apply orb_true_iff. right. simpl. by rewrite Hq.
  - assert (currWorker x < maxWorkers x) as Hlt.
    { pose proof (inflight_mark_settled _ _ _ Hw Hr) as Hin.
      pose proof (c_slots _ _ Hc) as Hs. pose proof (c_bound _ _ Hc) as Hb.
      unfold inflight in Hs. simpl. lia. }
    rewrite Hs', (runNext_admit x t rest) by done. simpl.
    repeat split; [lia|].
    rewrite lookup_app_r; rewrite !length_alter; [|done].
    by rewrite Nat.sub_diag.
Qed.

Lemma C6_application_error_rejects_witness :
  workers demoState !! 0%nat = Some demoWorkerA ∧ racing demoWorkerA
  ∧ promises (step (H := demoCollaborators) demoState
                (WorkerError 0 (ErrorOther "boom"))) !! 0%nat
    = Some (Rejected (ErrorOther "boom"))
  ∧ taskQueue (step (H := demoCollaborators) demoState
                 (WorkerError 0 (ErrorOther "boom"))) = []
  ∧ workers (step (H := demoCollaborators) demoState
               (WorkerError 0 (ErrorOther "boom"))) !! 1%nat
    = Some demoWorkerB.
Proof.
  assert (workers demoState !! 0%nat = Some demoWorkerA) as Hw
    by (vm_compute; reflexivity).
  assert (racing demoWorkerA) as Hr by (vm_compute; reflexivity).
  split; [exact Hw|]. split; [exact Hr|].
  pose proof (C6_application_error_rejects (H := demoCollaborators)
                1 10000 false demoQueue [] 0 demoWorkerA "boom" Hw Hr)
    as (Hrej & _ & _ & Hnext).
  vm_compute in Hrej, Hnext. vm_compute.
  split; [exact Hrej|]. exact (conj (proj1 Hnext) (proj2 (proj2 Hnext))).
Defined.

(** ** Termination on every rejection *)

(** C10: whatever rejects an open race (the timer, a non-zero exit code, or
    an error event of any kind), the first thing the [catch] callback does is
    [worker.terminate()]; only then does it resolve, throw or reject
    according to the class of the error. So the worker of a handler that
    raised an application error is terminated as well. *)
Theorem C10_terminate_on_every_rejection `{Collaborators}
    (s : WorkerManager) (ev : event) (w : nat) (wk : worker) (err : jsError) :
  rejection ev = Some (w, err) → workers s !! w = Some wk → racing wk →
  let s' := step s ev in
  (∃ wk', workers s' !! w = Some wk' ∧ w_terminated wk' = true)
  ∧ ∃ rest, trace s' = trace s ++ ETerminate w :: classified wk err :: rest.
Proof.
  intros Hev Hw Hr s'. unfold s'. rewrite (step_rejection s ev w err Hev).
  destruct (rejected_race s w wk err Hw Hr) as [Hterm Htrace].
  split; [|done]. eexists. split; [apply Hterm|done].
Qed.

Lemma C10_terminate_on_every_rejection_witness :
  rejection (WorkerError 0 (ErrorOther "boom"))
  = Some (0%nat, ErrorOther "boom")
  ∧ workers demoState !! 0%nat = Some demoWorkerA ∧ racing demoWorkerA
  ∧ ∃ rest, trace (step (H := demoCollaborators) demoState
                     (WorkerError 0 (ErrorOther "boom")))
            = trace demoState ++ ETerminate 0
                :: EReject 0 (ErrorOther "boom") :: rest.
Proof.
  assert (rejection (WorkerError 0 (ErrorOther "boom"))
          = Some (0%nat, ErrorOther "boom")) as Hev by reflexivity.
  assert (workers demoState !! 0%nat = Some demoWorkerA) as Hw
    by (vm_compute; reflexivity).
  assert (racing demoWorkerA) as Hr by (vm_compute; reflexivity).
  split; [exact Hev|]. split; [exact Hw|]. split; [exact Hr|].
  exact (proj2 (C10_terminate_on_every_rejection (H := demoCollaborators)
                  demoState (WorkerError 0 (ErrorOther "boom"))
                  0 demoWorkerA (ErrorOther "boom") Hev Hw Hr)).
Defined.

(** ** A slot that is never given back *)

Lemma jammed_step `{Collaborators} s ev :
  jammed s →
  jammed (step s ev)
  ∧ currWorker (step s ev) = currWorker s
  ∧ workers (step s ev) = workers s
  ∧ ∃ more, taskQueue (step s ev) = taskQueue s ++ more.
Proof.
  intros [Hfull Hdone].
  assert (∀ w o, settleRace w o s = s) as Hidle
    by (intros w o; apply settleRace_idle, Hdone).
  assert (jammed s) as Hj by done.
  destruct ev as [hp req dt|w r|w err|w code|w]; simpl; rewrite ?Hidle;
    try (by repeat split; try done; exists []; rewrite app_nil_r).
  - unfold addTask. rewrite runNext_gate.
    + repeat split; try done. by eexists.
    + apply orb_true_iff. left. simpl. apply Z.geb_le. lia.
  - destruct (negb (code =? 0)); rewrite ?Hidle;
      by repeat split; try done; exists []; rewrite app_nil_r.
Qed.

Lemma jammed_run `{Collaborators} evs s :
  jammed s →
  currWorker (run evs s) = currWorker s
  ∧ workers (run evs s) = workers s
  ∧ ∃ more, taskQueue (run evs s) = taskQueue s ++ more.
Proof.
  revert s. induction evs as [|ev evs IH]; intros s Hj.
  { repeat split. exists []. by rewrite app_nil_r. }
  rewrite run_cons.
  destruct (jammed_step s ev Hj) as (Hj' & Hc & Hw & more & Hq).
  destruct (IH _ Hj') as (-> & -> & more' & ->).
  repeat split; try done. exists (more ++ more'). by rewrite Hq, app_assoc.
Qed.

(** On the three outcomes that do not rethrow, the callback ends with one
    decrement of the counter followed by one call of [runNext]. *)
Lemma released_once `{Collaborators} s w wk o :
  workers s !! w = Some wk → racing wk →
  (∀ msg, o ≠ inr (ErrorWorkerExit msg)) →
  ∃ x, settleRace w o s = runNext (decrCurrWorker x)
       ∧ currWorker x = currWorker s ∧ taskQueue x = taskQueue s.
Proof.
  intros Hw Hr Ho. destruct o as [r|[msg|msg|msg]].
  - rewrite (settleRace_message s w wk) by done. by eexists.
  - rewrite (settleRace_timeout s w wk) by done. by eexists.
  - by destruct (Ho msg).
  - rewrite (settleRace_other s w wk) by done. by eexists.
Qed.

(** A non-zero exit code closes the race and changes neither the counter nor
    the queue. *)
Lemma exit_keeps_counter `{Collaborators} s w wk code :
  workers s !! w = Some wk → racing wk → code ≠ 0 →
  currWorker (step s (WorkerExit w code)) = currWorker s
  ∧ taskQueue (step s (WorkerExit w code)) = taskQueue s
  ∧ S (inflight (step s (WorkerExit w code))) = inflight s.
Proof.
  intros Hw Hr Hcode. simpl.
  destruct (Z.eqb_spec code 0) as [?|_]; [done|]. simpl. unfold exitError.
  rewrite (settleRace_exit s w wk) by done. repeat split.
  unfold inflight. simpl. rewrite inflight_mark_terminated.
  by apply (inflight_mark_settled _ w wk).
Qed.

(** C2 does not hold on the [ErrorWorkerExit] branch: with one slot and two
    submissions, a non-zero exit code of the first worker leaves [currWorker]
    at 1 although no race is open, leaves the second task in the queue, and
    no later event ever starts another worker. When the first worker fails
    with an application error instead, the slot is given back and the second
    task is admitted. *)
Theorem C2_exit_keeps_slot (evs' : list event) :
  let s := step (H := demoCollaborators) demoState (WorkerExit 0 1) in
  let s2 := step (H := demoCollaborators) demoState
              (WorkerError 0 (ErrorOther "boom")) in
  (currWorker s = 1 ∧ inflight s = 0%nat
   ∧ resolver <$> taskQueue s = [1%nat]
   ∧ trace s = trace demoState
               ++ [ETerminate 0;
                   EThrow (ErrorWorkerExit "worker stopped with exit code 1")])
  ∧ (currWorker (run (H := demoCollaborators) evs' s) = 1
     ∧ workers (run (H := demoCollaborators) evs' s) = workers s
     ∧ ∃ more, taskQueue (run (H := demoCollaborators) evs' s)
               = taskQueue s ++ more)
  ∧ (currWorker s2 = 1 ∧ inflight s2 = 1%nat ∧ taskQueue s2 = []
     ∧ workers s2 !! 1%nat = Some demoWorkerB).
Proof.
  intros s s2. split; [by vm_compute|]. split; [|by vm_compute].
  assert (jammed s) as Hj.
  { split; [vm_compute; discriminate|].
    intros [|w] wk Hw; vm_compute in Hw; by simplify_eq. }
  destruct (jammed_run (H := demoCollaborators) evs' s Hj) as (Hc & Hw & Hq).
  split; [|done]. rewrite Hc. by vm_compute.
Qed.

(** ** Queue ids *)

Lemma pretty_N_go_dotFree (x : N) (s : string) :
  dotFree s = true → dotFree (pretty_N_go x s) = true.
Proof.
  revert s. induction (N.lt_wf_0 x) as [x _ IH]; intros s Hs.
  assert (x = 0 ∨ 0 < x)%N as [->|Hx] by lia.
  - by rewrite pretty_N_go_0.
  - rewrite pretty_N_go_step by done. apply IH.
    + by apply N.div_lt.
    + simpl. rewrite Hs. unfold pretty_N_char. by repeat case_match.
Qed.

Lemma pretty_N_dotFree (x : N) : dotFree (pretty x) = true.
Proof.
  unfold pretty, pretty_N. case_decide; [done|].
  by apply pretty_N_go_dotFree.
Qed.

(** Two texts without a dot, each followed by a dot, can be told apart from
    whatever follows. *)
Lemma dotFree_split (a a' b b' : string) :
  dotFree a = true → dotFree a' = true →
  a +:+ "." +:+ b = a' +:+ "." +:+ b' → a = a' ∧ b = b'.
Proof.
  revert a'. induction a as [|c a IH]; intros [|c' a'] Ha Ha' Heq;
    simpl in *; simplify_eq; try done.
  - apply andb_true_iff in Ha as [Hc Ha]. destruct (IH a' Ha) as [-> ->];
      [by apply andb_true_iff in Ha' as [_ ?]|done|done].
Qed.

(** C9, amended: the id is the text [q], the length of the queue at the
    time of the call, a dot, and the reading of the clock; two ids are equal
    exactly when both the queue length and the clock reading are equal, so
    they differ as soon as one of the two differs. *)
Theorem C9_queue_id_injective (s1 s2 : WorkerManager) (t1 t2 : N) :
  createQueueId s1 t1 = createQueueId s2 t2
  ↔ length (taskQueue s1) = length (taskQueue s2) ∧ t1 = t2.
Proof.
  split.
  - unfold createQueueId. simpl. intros [= Heq].
    apply dotFree_split in Heq as [Hl Ht]; try apply pretty_N_dotFree.
    split; [by apply (inj pretty)|by apply (inj pretty)].
  - intros [Hl ->]. unfold createQueueId. by rewrite Hl.
Qed.

(** C9 as stated fails: two calls of [addTask] in the same millisecond, each
    finding the queue empty because the pool has a free slot, build the same
    id. *)
Lemma C9_counterexample :
  ¬ NoDup (queueIds
             (run (H := demoCollaborators)
                [AddTask "a" apiReq 1700000000000%N;
                 AddTask "b" webReq 1700000000000%N]
                WorkerManager0)).
Proof.
  vm_compute. intros Hnd. apply NoDup_cons in Hnd as [Hnotin _].
  apply Hnotin. left.
Qed.

(** * Further properties of the scheduler *)

(** ** Slots *)

(** X1: between events the counter is exactly the number of open races plus
    the number of [ErrorWorkerExit] rethrown so far: every other outcome
    gives its slot back, and a rethrown exit never does. *)
Theorem slot_accounting `{Collaborators}
    (maxW tmo : Z) (logger : bool) (evs : list event) :
  let s := run evs (initWith maxW tmo logger) in
  currWorker s = Z.of_nat (inflight s) + Z.of_nat (length (unhandled s)).
Proof.
  intros s.
  pose proof (c_slots _ _ (consistent_run evs _ (consistent_init maxW tmo logger)))
    as Hs.
  fold s in Hs. lia.
Qed.

Lemma outcome_cases (o : response + jsError) :
  (∃ msg, o = inr (ErrorWorkerExit msg))
  ∨ (∀ msg, o ≠ inr (ErrorWorkerExit msg)).
Proof. destruct o as [r|[msg|msg|msg]]; eauto. Qed.

Lemma runNext_eager s :
  (length (taskQueue s) ≤ 1)%nat ∨ currWorker s + 1 >= maxWorkers s →
  taskQueue (runNext s) = [] ∨ currWorker (runNext s) >= maxWorkers (runNext s).
Proof.
  intros Hpre.
  destruct ((currWorker s >=? maxWorkers s)
            || (length (taskQueue s) <? 1)%nat) eqn:Hg.
  - rewrite runNext_gate by done.
    apply orb_true_iff in Hg as [Hg|Hg].
    + right. apply Z.geb_le in Hg. lia.
    + left. apply Nat.ltb_lt in Hg. destruct (taskQueue s); [done|simpl in Hg; lia].
  - apply orb_false_iff in Hg as [Hlt _].
    assert (currWorker s < maxWorkers s) as Hlt'.
    { destruct (Z.geb_spec (currWorker s) (maxWorkers s)); [done|lia]. }
    destruct (taskQueue s) as [|t rest] eqn:Hq.
    { left. unfold runNext. by rewrite Hq, orb_true_r. }
    rewrite (runNext_admit s t rest) by done. simpl.
    destruct Hpre as [Hlen|Hfull].
    + left. destruct rest; [done|simpl in Hlen; lia].
    + right. lia.
Qed.

Section Eager.
Context `{Collaborators}.

(** The shape of a race callback that does not rethrow. *)
Lemma settleRace_release s w wk o :
  workers s !! w = Some wk → racing wk →
  (∀ msg, o ≠ inr (ErrorWorkerExit msg)) →
  ∃ x, settleRace w o s = runNext (decrCurrWorker x)
       ∧ currWorker x = currWorker s ∧ taskQueue x = taskQueue s
       ∧ maxWorkers x = maxWorkers s ∧ unhandled x = unhandled s
       ∧ length (workers x) = length (workers s).
Proof.
  intros Hw Hr Ho. destruct o as [r|[msg|msg|msg]].
  - rewrite (settleRace_message s w wk) by done.
    eexists. split; [done|]. simpl. by rewrite length_alter.
  - rewrite (settleRace_timeout s w wk) by done.
    eexists. split; [done|]. simpl. by rewrite !length_alter.
  - by destruct (Ho msg).
  - rewrite (settleRace_other s w wk) by done.
    eexists. split; [done|]. simpl. by rewrite !length_alter.
Qed.

Lemma settleRace_eager s w o :
  taskQueue s = [] ∨ currWorker s >= maxWorkers s →
  taskQueue (settleRace w o s) = []
  ∨ currWorker (settleRace w o s) >= maxWorkers (settleRace w o s).
Proof.
  intros He.
  destruct (workers s !! w) as [wk|] eqn:Hw;
    [|by rewrite settleRace_idle by (intros ?; congruence)].
  destruct (w_settled wk) eqn:Hr;
    [by rewrite settleRace_idle by (intros ?; congruence)|].
  destruct (outcome_cases o) as [[msg ->]|Hno].
  - by rewrite (settleRace_exit s w wk).
  - destruct (settleRace_release s w wk o Hw Hr Hno)
      as (x & -> & Hc & Hq & Hm & _).
    apply runNext_eager. simpl. rewrite Hc, Hq, Hm.
    destruct He as [->|Hfull]; [left; simpl; lia|right; lia].
Qed.

Lemma step_eager s ev :
  taskQueue s = [] ∨ currWorker s >= maxWorkers s →
  taskQueue (step s ev) = []
  ∨ currWorker (step s ev) >= maxWorkers (step s ev).
Proof.
  intros He. destruct ev as [hp req dt|w r|w err|w code|w]; simpl;
    auto using settleRace_eager.
  - unfold addTask. apply runNext_eager. simpl.
    destruct He as [->|Hfull]; [left; simpl; lia|right; lia].
  - destruct (negb (code =? 0)); auto using settleRace_eager.
Qed.

Lemma run_eager evs s :
  taskQueue s = [] ∨ currWorker s >= maxWorkers s →
  taskQueue (run evs s) = []
  ∨ currWorker (run evs s) >= maxWorkers (run evs s).
Proof.
  revert s. induction evs as [|ev evs IH]; intros s He; [done|].
  rewrite run_cons. by apply IH, step_eager.
Qed.

End Eager.

(** X2: the scheduler is work conserving. Between events a task waits in the
    queue only while every slot is taken: either the queue is empty or
    [currWorker >= maxWorkers]. *)
Theorem work_conserving `{Collaborators}
    (maxW tmo : Z) (logger : bool) (evs : list event) :
  let s := run evs (initWith maxW tmo logger) in
  taskQueue s = [] ∨ currWorker s >= maxWorkers s.
Proof. intros s. apply run_eager. by left. Qed.

(** ** What escapes *)

Section Escapes.
Context `{Collaborators}.

Lemma unhandled_settleRace s w o :
  unhandled (settleRace w o s) = unhandled s
  ∨ ∃ msg, unhandled (settleRace w o s) = unhandled s ++ [ErrorWorkerExit msg].
Proof.
  destruct (workers s !! w) as [wk|] eqn:Hw;
    [|by left; rewrite settleRace_idle by (intros ?; congruence)].
  destruct (w_settled wk) eqn:Hr;
    [by left; rewrite settleRace_idle by (intros ?; congruence)|].
  destruct (outcome_cases o) as [[msg ->]|Hno].
  - right. exists msg. by rewrite (settleRace_exit s w wk).
  - left. destruct (settleRace_release s w wk o Hw Hr Hno)
      as (x & -> & _ & _ & _ & <- & _).
    by destruct (runNext_frame (decrCurrWorker x)) as (_ & _ & -> & _).
Qed.

Lemma unhandled_step s ev :
  unhandled (step s ev) = unhandled s
  ∨ ∃ msg, unhandled (step s ev) = unhandled s ++ [ErrorWorkerExit msg].
Proof.
  destruct ev as [hp req dt|w r|w err|w code|w]; simpl;
    auto using unhandled_settleRace.
  - left. unfold addTask.
    match goal with |- context [runNext ?x] =>
      by destruct (runNext_frame x) as (_ & _ & -> & _) end.
  - destruct (negb (code =? 0)); auto using unhandled_settleRace.
Qed.

End Escapes.

(** X3: the only errors the callbacks of [runNext] ever let escape as
    unhandled rejections are [ErrorWorkerExit]s: a timeout or an application
    error is never rethrown. *)
Theorem only_exit_errors_escape `{Collaborators}
    (maxW tmo : Z) (logger : bool) (evs : list event) :
  Forall isExitError (unhandled (run evs (initWith maxW tmo logger))).
Proof.
  assert (∀ s0, Forall isExitError (unhandled s0) →
                Forall isExitError (unhandled (run evs s0))) as Hrun.
  { induction evs as [|ev evs IH]; intros s0 H0; [done|].
    rewrite run_cons. apply IH.
    destruct (unhandled_step s0 ev) as [->|[msg ->]]; [done|].
    apply Forall_app. split; [done|]. by repeat constructor. }
  by apply Hrun.
Qed.

(** ** Events and the race they settle *)

Section Events.
Context `{Collaborators}.

Lemma step_outcome s ev w o :
  outcomeOf ev = Some (w, o) → step s ev = settleRace w o s.
Proof.
  destruct ev as [hp req dt|w' r|w' err|w' code|w']; simpl; try done.
  - by intros [= -> <-].
  - by intros [= -> <-].
  - destruct (negb (code =? 0)); simpl; [by intros [= -> <-]|done].
  - by intros [= -> <-].
Qed.

Lemma step_target s ev w :
  target ev = Some w →
  step s ev = s ∨ ∃ o, step s ev = settleRace w o s.
Proof.
  destruct ev as [hp req dt|w' r|w' err|w' code|w']; simpl; try done;
    intros [= ->]; eauto.
  destruct (negb (code =? 0)); eauto.
Qed.

(** In a state the event loop can reach, the worker with index [w] serves
    the submission with index [w] and holds the promise with index [w]. *)
Lemma worker_index maxW tmo logger evs w wk :
  let s := run evs (initWith maxW tmo logger) in
  workers s !! w = Some wk →
  w_resolver wk = w
  ∧ ∃ sub, submitted evs !! w = Some sub
           ∧ payload (w_data wk) = payloadOf sub.
Proof.
  intros s Hw.
  destruct (entries_run evs (initWith maxW tmo logger)) as (Hr & Hp & _).
  fold s in Hr, Hp. simpl in Hr, Hp.
  assert (entries s !! w = Some (w_resolver wk, w_data wk)) as He.
  { unfold entries. apply lookup_app_l_Some.
    by rewrite list_lookup_fmap, Hw. }
  split.
  - assert ((fst <$> entries s) !! w = Some (w_resolver wk)) as Hf
      by (by rewrite list_lookup_fmap, He).
    rewrite Hr in Hf. apply lookup_seq in Hf as [Hf _]. simpl in Hf. done.
  - assert (((payload ∘ snd) <$> entries s) !! w = Some (payload (w_data wk)))
      as Hf by (by rewrite list_lookup_fmap, He).
    rewrite Hp, list_lookup_fmap in Hf.
    destruct (submitted evs !! w) as [sub|]; simplify_eq/=.
    exists sub. split; [done|]. congruence.
Qed.

End Events.

(** X4: once the race of a worker has settled (or for a worker that was
    never spawned), no event about that worker changes anything: a timer
    that fires after the answer, a message after the timeout, the exit that
    follows [terminate] are all without effect. *)
Theorem late_events_ignored `{Collaborators}
    (s : WorkerManager) (w : nat) (evs : list event) :
  (∀ wk, workers s !! w = Some wk → w_settled wk = true) →
  Forall (λ ev, target ev = Some w) evs →
  run evs s = s.
Proof.
  intros Hdone Hevs. induction Hevs as [|ev evs Hev _ IH]; [done|].
  rewrite run_cons.
  assert (step s ev = s) as ->; [|done].
  destruct (step_target s ev w Hev) as [->|[o ->]]; [done|].
  by apply settleRace_idle.
Qed.

Lemma late_events_ignored_witness :
  (∀ wk, workers (step (H := demoCollaborators) demoState
                    (WorkerMessage 0 (Response true 200 "ok"))) !! 0%nat
         = Some wk → w_settled wk = true)
  ∧ Forall (λ ev, target ev = Some 0%nat) [TimerFired 0; WorkerExit 0 1]
  ∧ run (H := demoCollaborators) [TimerFired 0; WorkerExit 0 1]
      (step (H := demoCollaborators) demoState
         (WorkerMessage 0 (Response true 200 "ok")))
    = step (H := demoCollaborators) demoState
        (WorkerMessage 0 (Response true 200 "ok")).
Proof.
  assert (∀ wk, workers (step (H := demoCollaborators) demoState
                    (WorkerMessage 0 (Response true 200 "ok"))) !! 0%nat
                = Some wk → w_settled wk = true) as Hdone.
  { intros wk Hw. vm_compute in Hw. by simplify_eq. }
  assert (Forall (λ ev, target ev = Some 0%nat) [TimerFired 0; WorkerExit 0 1])
    as Hevs by (by repeat constructor).
  split; [exact Hdone|]. split; [exact Hevs|].
  exact (late_events_ignored (H := demoCollaborators) _ 0
           [TimerFired 0; WorkerExit 0 1] Hdone Hevs).
Defined.

(** X5: an event about worker [w] touches no promise but the one with index
    [w]: an answer, a timeout or a failure of one task never settles the
    request of another. *)
Theorem outcome_isolation `{Collaborators}
    (maxW tmo : Z) (logger : bool) (evs : list event)
    (ev : event) (w p : nat) :
  let s := run evs (initWith maxW tmo logger) in
  target ev = Some w → p ≠ w →
  promises (step s ev) !! p = promises s !! p.
Proof.
  intros s Hev Hp.
  destruct (step_target s ev w Hev) as [->|[o ->]]; [done|].
  destruct (promises_settleRace s w o) as [->|(wk & o' & Hw & _ & ->)];
    [done|].
  destruct (worker_index maxW tmo logger evs w wk Hw) as [Hres _].
  rewrite settle_other; [done|]. congruence.
Qed.

Lemma outcome_isolation_witness :
  target (TimerFired 0) = Some 0%nat ∧ 1%nat ≠ 0%nat
  ∧ promises (step (H := demoCollaborators) demoState (TimerFired 0)) !! 1%nat
    = promises demoState !! 1%nat.
Proof.
  assert (target (TimerFired 0) = Some 0%nat) as Hev by reflexivity.
  assert (1%nat ≠ 0%nat) as Hp by lia.
  split; [exact Hev|]. split; [exact Hp|].
  exact (outcome_isolation (H := demoCollaborators) 1 10000 false demoQueue
           (TimerFired 0) 0 1 Hev Hp).
Defined.

(** ** Effects of one event *)

Lemma settleCalls_app tr1 tr2 :
  settleCalls (tr1 ++ tr2) = settleCalls tr1 ++ settleCalls tr2.
Proof. apply bind_app. Qed.

Lemma terminations_app tr1 tr2 :
  terminations (tr1 ++ tr2) = terminations tr1 ++ terminations tr2.
Proof. apply bind_app. Qed.

Lemma counterWrites_app tr1 tr2 :
  counterWrites (tr1 ++ tr2) = counterWrites tr1 ++ counterWrites tr2.
Proof. apply bind_app. Qed.

(** [runNext] calls neither [resolve], [reject] nor [terminate]. *)
Lemma runNext_quiet s :
  ∃ rest, trace (runNext s) = trace s ++ rest
          ∧ settleCalls rest = [] ∧ terminations rest = [].
Proof.
  unfold runNext.
  destruct ((currWorker s >=? maxWorkers s) || (length (taskQueue s) <? 1)%nat);
    [by exists []; rewrite app_nil_r|].
  destruct (taskQueue s) as [|t rest];
    [by exists []; rewrite app_nil_r|].
  eexists. simpl. by rewrite <- !app_assoc.
Qed.

Section Effects.
Context `{Collaborators}.

(** The calls an open race makes when it settles: [terminate] unless the
    worker answered, and one [resolve] or [reject] unless the error is
    rethrown. *)
Lemma settleRace_calls s w wk o :
  workers s !! w = Some wk → racing wk →
  ∃ added, trace (settleRace w o s) = trace s ++ added
    ∧ settleCalls added
      = match o with
        | inr (ErrorWorkerExit _) => []
        | _ => [w_resolver wk]
        end
    ∧ terminations added = match o with inl _ => [] | inr _ => [w] end.
Proof.
  intros Hw Hr. destruct o as [r|[msg|msg|msg]].
  - rewrite (settleRace_message s w wk) by done.
    match goal with |- context [runNext ?x] =>
      destruct (runNext_quiet x) as (rest & -> & Hs & Ht) end.
    simpl. eexists. rewrite <- !app_assoc. split; [done|].
    by rewrite !settleCalls_app, !terminations_app, Hs, Ht.
  - rewrite (settleRace_timeout s w wk) by done.
    match goal with |- context [runNext ?x] =>
      destruct (runNext_quiet x) as (rest & -> & Hs & Ht) end.
    simpl. eexists. rewrite <- !app_assoc. split; [done|].
    by rewrite !settleCalls_app, !terminations_app, Hs, Ht.
  - rewrite (settleRace_exit s w wk) by done.
    simpl. eexists. rewrite <- !app_assoc. by split.
  - rewrite (settleRace_other s w wk) by done.
    match goal with |- context [runNext ?x] =>
      destruct (runNext_quiet x) as (rest & -> & Hs & Ht) end.
    simpl. eexists. rewrite <- !app_assoc. split; [done|].
    by rewrite !settleCalls_app, !terminations_app, Hs, Ht.
Qed.

(** What an event adds to the log: calls of [terminate] only on the worker
    it is about, and only if that race was open and the event is no
    message. *)
Lemma step_terminations s ev :
  ∃ added, trace (step s ev) = trace s ++ added
    ∧ ∀ w, w ∈ terminations added →
        target ev = Some w
        ∧ (∃ wk, workers s !! w = Some wk ∧ racing wk)
        ∧ ∀ r, ev ≠ WorkerMessage w r.
Proof.
  assert (∀ w o, ∃ added, trace (settleRace w o s) = trace s ++ added
            ∧ ∀ w', w' ∈ terminations added →
                w' = w ∧ (∃ wk, workers s !! w = Some wk ∧ racing wk)
                ∧ ∀ r, o ≠ inl r) as Hrace.
  { intros w o.
    destruct (workers s !! w) as [wk|] eqn:Hw;
      [|exists []; rewrite settleRace_idle by (intros ?; congruence);
        rewrite app_nil_r; split; [done|intros ? []%elem_of_nil]].
    destruct (w_settled wk) eqn:Hr;
      [exists []; rewrite settleRace_idle by (intros ?; congruence);
       rewrite app_nil_r; split; [done|intros ? []%elem_of_nil]|].
    destruct (settleRace_calls s w wk o Hw Hr) as (added & -> & _ & Ht).
    exists added. split; [done|]. intros w' Hin. rewrite Ht in Hin.
    destruct o as [r|e]; [by apply elem_of_nil in Hin|].
    apply list_elem_of_singleton in Hin as ->. eauto. }
  destruct ev as [hp req dt|w r|w err|w code|w]; simpl.
  - unfold addTask.
    match goal with |- context [runNext ?x] =>
      destruct (runNext_quiet x) as (rest & -> & _ & Ht) end.
    exists rest. split; [done|]. rewrite Ht. intros ? []%elem_of_nil.
  - destruct (Hrace w (inl r)) as (added & -> & Hadd). exists added.
    split; [done|]. intros w' Hin. by destruct (Hadd w' Hin) as (_ & _ & Hno), (Hno r).
  - destruct (Hrace w (inr err)) as (added & -> & Hadd). exists added.
    split; [done|]. intros w' Hin. by destruct (Hadd w' Hin) as (-> & ? & _).
  - destruct (negb (code =? 0)).
    + destruct (Hrace w (inr (exitError code))) as (added & -> & Hadd).
      exists added. split; [done|]. intros w' Hin.
      by destruct (Hadd w' Hin) as (-> & ? & _).
    + exists []. rewrite app_nil_r. split; [done|intros ? []%elem_of_nil].
  - destruct (Hrace w (inr timeoutError)) as (added & -> & Hadd). exists added.
    split; [done|]. intros w' Hin. by destruct (Hadd w' Hin) as (-> & ? & _).
Qed.

(** A race that has settled stays settled. *)
Lemma settled_stays s ev w wk :
  workers s !! w = Some wk → w_settled wk = true →
  ∃ wk', workers (step s ev) !! w = Some wk' ∧ w_settled wk' = true.
Proof.
  intros Hw Hs.
  assert (∀ x, workers x !! w = Some wk →
               ∃ wk', workers (runNext x) !! w = Some wk' ∧ w_settled wk' = true)
    as Hnext.
  { intros x Hx. destruct (runNext_workers x) as (new & ->).
    exists wk. split; [by apply lookup_app_l_Some|done]. }
  assert (∀ w' o, ∃ wk', workers (settleRace w' o s) !! w = Some wk'
                         ∧ w_settled wk' = true) as Hrace.
  { intros w' o.
    destruct (workers s !! w') as [wk0|] eqn:Hw';
      [|rewrite settleRace_idle by (intros ?; congruence); eauto].
    destruct (w_settled wk0) eqn:Hr;
      [rewrite settleRace_idle by (intros ?; congruence); eauto|].
    assert (w ≠ w') as Hne by (intros ->; congruence).
    assert (workers (raceSettled w' s) !! w = Some wk) as H1
      by (simpl; by rewrite list_lookup_alter_ne).
    assert (workers (terminate w' (raceSettled w' s)) !! w = Some wk) as H2
      by (simpl; by rewrite !list_lookup_alter_ne).
    destruct o as [r|[msg|msg|msg]].
    - rewrite (settleRace_message s w' wk0) by done. by apply Hnext.
    - rewrite (settleRace_timeout s w' wk0) by done. by apply Hnext.
    - rewrite (settleRace_exit s w' wk0) by done. eauto.
    - rewrite (settleRace_other s w' wk0) by done. by apply Hnext. }
  destruct ev as [hp req dt|w' r|w' err|w' code|w']; simpl; auto.
  - unfold addTask. by apply Hnext.
  - destruct (negb (code =? 0)); eauto.
Qed.

Lemma never_terminated_after s w wk evs :
  workers s !! w = Some wk → w_settled wk = true →
  ∃ added, trace (run evs s) = trace s ++ added ∧ w ∉ terminations added.
Proof.
  revert s wk. induction evs as [|ev evs IH]; intros s wk Hw Hs.
  { exists []. rewrite app_nil_r. split; [done|]. apply not_elem_of_nil. }
  rewrite run_cons.
  destruct (settled_stays s ev w wk Hw Hs) as (wk' & Hw' & Hs').
  destruct (IH _ _ Hw' Hs') as (added2 & -> & Hno2).
  destruct (step_terminations s ev) as (added1 & -> & Hadd1).
  exists (added1 ++ added2). rewrite <- app_assoc. split; [done|].
  rewrite terminations_app. intros [Hin|Hin]%elem_of_app; [|done].
  destruct (Hadd1 w Hin) as (_ & (wk0 & Hw0 & Hr0) & _).
  unfold racing in Hr0. congruence.
Qed.

End Effects.

(** X7: a worker that answers with a message while its race is open is
    never terminated by the scheduler, neither by the callback that takes
    the answer nor by any later event, a later firing of its timer
    included. *)
Theorem answered_worker_never_terminated `{Collaborators}
    (s : WorkerManager) (w : nat) (wk : worker) (r : response)
    (evs : list event) :
  workers s !! w = Some wk → racing wk →
  ∃ added, trace (run evs (step s (WorkerMessage w r))) = trace s ++ added
           ∧ w ∉ terminations added.
Proof.
  intros Hw Hr.
  destruct (step_terminations s (WorkerMessage w r)) as (added1 & Ht1 & Hadd1).
  assert (∃ wk', workers (step s (WorkerMessage w r)) !! w = Some wk'
                 ∧ w_settled wk' = true) as (wk' & Hw' & Hs').
  { simpl. rewrite (settleRace_message s w wk) by done.
    match goal with |- context [runNext ?x] =>
      destruct (runNext_workers x) as (new & ->) end.
    exists (mark_settled wk). split; [|done].
    apply lookup_app_l_Some. simpl. by rewrite list_lookup_alter_eq, Hw. }
  destruct (never_terminated_after _ w wk' evs Hw' Hs')
    as (added2 & -> & Hno2).
  exists (added1 ++ added2). rewrite Ht1, <- app_assoc. split; [done|].
  rewrite terminations_app. intros [Hin|Hin]%elem_of_app; [|done].
  by destruct (Hadd1 w Hin) as (_ & _ & Hno), (Hno r).
Qed.

Lemma answered_worker_never_terminated_witness :
  workers demoState !! 0%nat = Some demoWorkerA ∧ racing demoWorkerA
  ∧ ∃ added,
      trace (run (H := demoCollaborators) [TimerFired 0; WorkerExit 0 1]
               (step (H := demoCollaborators) demoState
                  (WorkerMessage 0 (Response true 200 "ok"))))
      = trace demoState ++ added
      ∧ 0%nat ∉ terminations added.
Proof.
  assert (workers demoState !! 0%nat = Some demoWorkerA) as Hw
    by (vm_compute; reflexivity).
  assert (racing demoWorkerA) as Hr by (vm_compute; reflexivity).
  split; [exact Hw|]. split; [exact Hr|].
  exact (answered_worker_never_terminated (H := demoCollaborators)
           demoState 0 demoWorkerA (Response true 200 "ok")
           [TimerFired 0; WorkerExit 0 1] Hw Hr).
Defined.

(** ** One call per promise, one per worker *)

Section Once.
Context `{Collaborators}.

Lemma owns_settleRace_open p s w wk o :
  workers s !! w = Some wk → racing wk →
  owns p (settleRace w o s) → owns p (raceSettled w s).
Proof.
  intros Hw Hr. destruct o as [r|[msg|msg|msg]].
  - rewrite (settleRace_message s w wk) by done. by intros Hown%owns_runNext.
  - rewrite (settleRace_timeout s w wk) by done.
    intros Hown%owns_runNext. by apply (owns_terminate p w).
  - rewrite (settleRace_exit s w wk) by done. intros Hown.
    by apply (owns_terminate p w).
  - rewrite (settleRace_other s w wk) by done.
    intros Hown%owns_runNext. by apply (owns_terminate p w).
Qed.

Lemma calledOnce_settleRace s w o :
  consistent 0 s → calledOnce s → calledOnce (settleRace w o s).
Proof.
  intros Hc [Hnd Hold].
  destruct (workers s !! w) as [wk|] eqn:Hw;
    [|by rewrite settleRace_idle by (intros ?; congruence)].
  destruct (w_settled wk) eqn:Hr;
    [by rewrite settleRace_idle by (intros ?; congruence)|].
  destruct (settleRace_calls s w wk o Hw Hr) as (added & Htr & Hcalls & _).
  destruct (settleRace_frame s w o) as (_ & _ & Hlen).
  destruct (consistent_mark_settled s w wk Hc Hw Hr) as (_ & Hfree & Hpend).
  assert (owns (w_resolver wk) s) as Hown by (left; eauto).
  assert (∀ p, p ∈ settleCalls (trace s) →
               ¬ owns p (settleRace w o s)
               ∧ (p < length (promises (settleRace w o s)))%nat) as Hold'.
  { intros p Hp. destruct (Hold p Hp) as [Hfree' Hlt]. rewrite Hlen.
    split; [|done]. by intros Hown'%owns_settleRace. }
  split; rewrite Htr, settleCalls_app, Hcalls.
  - destruct o as [r|[msg|msg|msg]]; rewrite ?app_nil_r; try done;
      (apply NoDup_app; split; [done|]; split; [|apply NoDup_singleton];
       intros p Hp ->%list_elem_of_singleton; by destruct (Hold _ Hp)).
  - assert (¬ owns (w_resolver wk) (settleRace w o s)
            ∧ (w_resolver wk < length (promises (settleRace w o s)))%nat)
      as Hnew.
    { split; [by intros Hown'%(owns_settleRace_open _ _ _ wk)|].
      rewrite Hlen. by eapply lookup_lt_Some. }
    intros p [Hp|Hp]%elem_of_app; [by apply Hold'|].
    destruct o as [r|[msg|msg|msg]];
      first [by apply elem_of_nil in Hp
            |by apply list_elem_of_singleton in Hp as ->].
Qed.

Lemma calledOnce_step s ev :
  consistent 0 s → calledOnce s → calledOnce (step s ev).
Proof.
  intros Hc Hcalled.
  destruct ev as [hp req dt|w r|w err|w code|w]; simpl;
    auto using calledOnce_settleRace.
  - destruct Hcalled as [Hnd Hold].
    destruct (addTask_frame s hp req dt) as (_ & _ & Hpr).
    assert (settleCalls (trace (addTask hp req dt s)) = settleCalls (trace s))
      as Htr.
    { unfold addTask.
      match goal with |- context [runNext ?x] =>
        destruct (runNext_quiet x) as (rest & -> & Hs & _) end.
      by rewrite settleCalls_app, Hs, app_nil_r. }
    split; rewrite Htr; [done|].
    intros p Hp. destruct (Hold p Hp) as [Hfree Hlt].
    rewrite Hpr, length_app. split; [|simpl; lia].
    intros [Hown| ->]%owns_addTask; [done|lia].
  - destruct (negb (code =? 0)); auto using calledOnce_settleRace.
Qed.

Lemma calledOnce_run evs s :
  consistent 0 s → calledOnce s → calledOnce (run evs s).
Proof.
  revert s. induction evs as [|ev evs IH]; intros s Hc Hcalled; [done|].
  rewrite run_cons. apply IH; [by apply consistent_step|].
  by apply calledOnce_step.
Qed.

Lemma terminatedOnce_step s ev : terminatedOnce s → terminatedOnce (step s ev).
Proof.
  intros [Hnd Hold].
  destruct (step_terminations s ev) as (added & Htr & Hadd).
  assert (∀ w, w ∈ terminations (trace s) →
               ∃ wk, workers (step s ev) !! w = Some wk ∧ w_settled wk = true)
    as Hold'.
  { intros w Hin. destruct (Hold w Hin) as (wk & Hw & Hs).
    by apply (settled_stays s ev w wk). }
  assert (terminations added = []
          ∨ ∃ w wk, terminations added = [w] ∧ workers s !! w = Some wk
                    ∧ racing wk
                    ∧ ∃ wk', workers (step s ev) !! w = Some wk'
                             ∧ w_settled wk' = true) as Hshape.
  { destruct (target ev) as [w|] eqn:Hev.
    - destruct (step_target s ev w Hev) as [Hid|[o Ho]].
      + left. rewrite Hid in Htr.
        assert (added = []) as -> by (by eapply app_inv_head; rewrite app_nil_r).
        done.
      + destruct (workers s !! w) as [wk|] eqn:Hw.
        2: { left. rewrite Ho, settleRace_idle in Htr by (intros ?; congruence).
             assert (added = []) as ->
               by (by eapply app_inv_head; rewrite app_nil_r).
             done. }
        destruct (w_settled wk) eqn:Hr.
        { left. rewrite Ho, settleRace_idle in Htr by (intros ?; congruence).
          assert (added = []) as ->
            by (by eapply app_inv_head; rewrite app_nil_r).
          done. }
        destruct (settleRace_calls s w wk o Hw Hr) as (added' & Htr' & _ & Ht).
        rewrite Ho, Htr' in Htr. apply app_inv_head in Htr as <-.
        destruct o as [r|e]; [by left|]. right. exists w, wk.
        repeat split; [done..|]. rewrite Ho.
        destruct (rejected_race s w wk e Hw Hr) as [-> _]. eauto.
    - left. destruct (terminations added) as [|w l] eqn:Hl; [done|].
      destruct (Hadd w) as [Hw' _]; [rewrite ?Hl; left|congruence]. }
  split; rewrite Htr, terminations_app.
  - destruct Hshape as [->|(w & wk & -> & Hw & Hr & _)];
      [by rewrite app_nil_r|].
    apply NoDup_app. split; [done|]. split; [|apply NoDup_singleton].
    intros w' Hin ->%list_elem_of_singleton.
    destruct (Hold _ Hin) as (wk0 & Hw0 & Hs0). unfold racing in Hr. congruence.
  - intros w [Hin|Hin]%elem_of_app; [by apply Hold'|].
    destruct Hshape as [Hnil|(w' & wk & Heq & _ & _ & Hres)].
    + rewrite Hnil in Hin. by apply elem_of_nil in Hin.
    + rewrite Heq in Hin. by apply list_elem_of_singleton in Hin as ->.
Qed.

Lemma terminatedOnce_run evs s : terminatedOnce s → terminatedOnce (run evs s).
Proof.
  revert s. induction evs as [|ev evs IH]; intros s Hs; [done|].
  rewrite run_cons. by apply IH, terminatedOnce_step.
Qed.

End Once.

(** X9: over any run, [resolve] or [reject] is called at most once for each
    caller: the promise of one task is never the target of two calls, be it
    two answers, an answer and a timeout, or a timeout and a failure. *)
Theorem settled_at_most_once `{Collaborators}
    (maxW tmo : Z) (logger : bool) (evs : list event) :
  NoDup (settleCalls (trace (run evs (initWith maxW tmo logger)))).
Proof.
  apply (calledOnce_run evs (initWith maxW tmo logger)).
  - apply consistent_init.
  - split; [apply NoDup_nil_2|intros p []%elem_of_nil].
Qed.

(** X15: over any run, [worker.terminate()] is called at most once for each
    worker, and only for workers whose race has already settled: a worker
    whose race is still open is never terminated. *)
Theorem terminated_at_most_once `{Collaborators}
    (maxW tmo : Z) (logger : bool) (evs : list event) :
  let s := run evs (initWith maxW tmo logger) in
  NoDup (terminations (trace s))
  ∧ ∀ w, w ∈ terminations (trace s) →
      ∃ wk, workers s !! w = Some wk ∧ w_settled wk = true.
Proof.
  intros s. apply (terminatedOnce_run evs (initWith maxW tmo logger)).
  split; [apply NoDup_nil_2|intros w []%elem_of_nil].
Qed.

(** ** Handing the slot over *)

Section Handoff.
Context `{Collaborators}.

Lemma settleRace_release_trace s w wk o :
  workers s !! w = Some wk → racing wk → releases o →
  ∃ x pre, settleRace w o s = runNext (decrCurrWorker x)
    ∧ currWorker x = currWorker s ∧ taskQueue x = taskQueue s
    ∧ maxWorkers x = maxWorkers s ∧ unhandled x = unhandled s
    ∧ timeoutMs x = timeoutMs s
    ∧ length (workers x) = length (workers s)
    ∧ trace x = trace s ++ pre ∧ counterWrites pre = [].
Proof.
  intros Hw Hr Ho. destruct o as [r|[msg|msg|msg]].
  - rewrite (settleRace_message s w wk) by done.
    eexists _, _. split; [done|]. simpl. by rewrite length_alter.
  - rewrite (settleRace_timeout s w wk) by done.
    eexists _, _. split; [done|]. simpl.
    rewrite !length_alter, <- !app_assoc. by repeat split.
  - by destruct (Ho msg).
  - rewrite (settleRace_other s w wk) by done.
    eexists _, _. split; [done|]. simpl.
    rewrite !length_alter, <- !app_assoc. by repeat split.
Qed.

End Handoff.

(** X6: when an open race settles with an answer, a timeout or an
    application error, the callback writes the counter down by one exactly
    once and calls [runNext]: with an empty queue the slot becomes free; with
    a waiting task the head of the queue, and only the head, is spawned in
    the same step with a fresh timer, and the counter is written back to its
    old value. Nothing is thrown. *)
Theorem slot_handoff `{Collaborators}
    (maxW tmo : Z) (logger : bool) (evs : list event)
    (ev : event) (w : nat) (wk : worker) (o : response + jsError) :
  let s := run evs (initWith maxW tmo logger) in
  outcomeOf ev = Some (w, o) → releases o →
  workers s !! w = Some wk → racing wk →
  let s' := step s ev in
  unhandled s' = unhandled s
  ∧ ∃ added, trace s' = trace s ++ added
    ∧ match taskQueue s with
      | [] =>
          taskQueue s' = [] ∧ currWorker s' = currWorker s - 1
          ∧ length (workers s') = length (workers s)
          ∧ counterWrites added = [currWorker s - 1]
      | t :: rest =>
          taskQueue s' = rest ∧ currWorker s' = currWorker s
          ∧ length (workers s') = S (length (workers s))
          ∧ workers s' !! length (workers s)
            = Some (Worker (workerDataOf t) (resolver t) false false)
          ∧ counterWrites added = [currWorker s - 1; currWorker s]
      end.
Proof.
  intros s Hev Ho Hw Hr s'. unfold s'. rewrite (step_outcome s ev w o Hev).
  destruct (racing_pending maxW tmo logger evs w wk Hw Hr) as (Hc & _ & _).
  fold s in Hc.
  destruct (settleRace_release_trace s w wk o Hw Hr Ho)
    as (x & pre & -> & Hcur & Hq & Hm & Hu & Htm & Hlen & Htr & Hpre).
  split.
  { destruct (runNext_frame (decrCurrWorker x)) as (_ & _ & -> & _). done. }
  destruct (taskQueue s) as [|t rest] eqn:Hqs.
  - rewrite runNext_gate
      by (apply orb_true_iff; right; simpl; by rewrite Hq).
    exists (pre ++ [ECurrWorker (currWorker s - 1)]). simpl.
    rewrite Htr, Hcur, <- app_assoc, counterWrites_app, Hpre. done.
  - assert (currWorker (decrCurrWorker x) < maxWorkers (decrCurrWorker x))
      as Hlt.
    { pose proof (inflight_mark_settled _ _ _ Hw Hr) as Hin.
      pose proof (c_slots _ _ Hc) as Hs. pose proof (c_bound _ _ Hc) as Hb.
      unfold inflight in Hs. simpl. lia. }
    rewrite (runNext_admit (decrCurrWorker x) t rest) by done.
    exists (pre ++ [ECurrWorker (currWorker s - 1); ECurrWorker (currWorker s);
                    ESetTimeout (length (workers s)) (timeoutMs s);
                    ESpawn (length (workers s)) (workerDataOf t)]).
    simpl. rewrite Htr, Hcur, Hlen, Htm, <- !app_assoc, counterWrites_app, Hpre.
    replace (currWorker s - 1 + 1) with (currWorker s) by lia.
    repeat split; try done.
    + rewrite length_app. simpl. lia.
    + rewrite lookup_app_r by lia. by rewrite Hlen, Nat.sub_diag.
Qed.

Lemma slot_handoff_witness :
  outcomeOf (WorkerMessage 0 (Response true 200 "ok"))
  = Some (0%nat, inl (Response true 200 "ok"))
  ∧ releases (inl (Response true 200 "ok"))
  ∧ workers demoState !! 0%nat = Some demoWorkerA ∧ racing demoWorkerA
  ∧ currWorker (step (H := demoCollaborators) demoState
                  (WorkerMessage 0 (Response true 200 "ok"))) = 1
  ∧ workers (step (H := demoCollaborators) demoState
               (WorkerMessage 0 (Response true 200 "ok"))) !! 1%nat
    = Some demoWorkerB.
Proof.
  assert (outcomeOf (WorkerMessage 0 (Response true 200 "ok"))
          = Some (0%nat, inl (Response true 200 "ok"))) as Hev by reflexivity.
  assert (releases (inl (Response true 200 "ok"))) as Ho by (intros msg; done).
  assert (workers demoState !! 0%nat = Some demoWorkerA) as Hw
    by (vm_compute; reflexivity).
  assert (racing demoWorkerA) as Hr by (vm_compute; reflexivity).
  split; [exact Hev|]. split; [exact Ho|]. split; [exact Hw|].
  split; [exact Hr|].
  pose proof (slot_handoff (H := demoCollaborators) 1 10000 false demoQueue
                (WorkerMessage 0 (Response true 200 "ok")) 0 demoWorkerA
                (inl (Response true 200 "ok")) Hev Ho Hw Hr)
    as (_ & added & _ & Hnext).
  vm_compute in Hnext. vm_compute.
  exact (conj (proj1 (proj2 Hnext)) (proj1 (proj2 (proj2 (proj2 Hnext))))).
Defined.

(** ** A pool used up by abnormal exits *)

Lemma none_racing (ws : list worker) :
  length (filter racing ws) = 0%nat →
  ∀ w wk, ws !! w = Some wk → w_settled wk = true.
Proof.
  intros Hlen w wk Hw. destruct (w_settled wk) eqn:Hs; [done|].
  assert (wk ∈ filter racing ws) as Hin.
  { apply list_elem_of_filter. split; [done|].
    by eapply list_elem_of_lookup_2. }
  apply length_zero_iff_nil in Hlen. rewrite Hlen in Hin.
  by apply elem_of_nil in Hin.
Qed.

(** X8: every rethrown [ErrorWorkerExit] costs one slot for good. Once as
    many of them have occurred as there are slots, no race is open, the
    counter sits at the limit, and from then on no event ever starts a
    worker again: submissions only pile up in the queue. *)
Theorem pool_exhausted_by_exits `{Collaborators}
    (maxW tmo : Z) (logger : bool) (evs evs' : list event) :
  let s := run evs (initWith maxW tmo logger) in
  0 ≤ maxW → Z.of_nat (length (unhandled s)) >= maxW →
  inflight s = 0%nat ∧ currWorker s = maxW
  ∧ workers (run evs' s) = workers s
  ∧ currWorker (run evs' s) = maxW
  ∧ ∃ more, taskQueue (run evs' s) = taskQueue s ++ more.
Proof.
  intros s Hm Hu.
  destruct (consistent_run evs _ (consistent_init maxW tmo logger))
    as [Hs Hb _ _ _].
  fold s in Hs, Hb.
  assert (maxWorkers s = maxW) as Hmax by apply maxWorkers_run.
  rewrite Hmax in Hb.
  assert (inflight s = 0%nat) as Hin by lia.
  assert (currWorker s = maxW) as Hcur by lia.
  assert (jammed s) as Hj.
  { split; [lia|]. by apply none_racing. }
  destruct (jammed_run evs' s Hj) as (Hc & Hw & Hq).
  rewrite Hc. done.
Qed.

Lemma pool_exhausted_by_exits_witness :
  0 ≤ 1
  ∧ Z.of_nat (length (unhandled (run (H := demoCollaborators)
                                   (demoQueue ++ [WorkerExit 0 1])
                                   (initWith 1 10000 false)))) >= 1
  ∧ workers (run (H := demoCollaborators)
               [AddTask "c" apiReq 7%N; TimerFired 0]
               (run (H := demoCollaborators) (demoQueue ++ [WorkerExit 0 1])
                  (initWith 1 10000 false)))
    = workers (run (H := demoCollaborators) (demoQueue ++ [WorkerExit 0 1])
                 (initWith 1 10000 false)).
Proof.
  assert (0 ≤ 1) as Hm by lia.
  assert (Z.of_nat (length (unhandled (run (H := demoCollaborators)
                                         (demoQueue ++ [WorkerExit 0 1])
                                         (initWith 1 10000 false)))) >= 1)
    as Hu by (vm_compute; discriminate).
  split; [exact Hm|]. split; [exact Hu|].
  exact (proj1 (proj2 (proj2
    (pool_exhausted_by_exits (H := demoCollaborators) 1 10000 false
       (demoQueue ++ [WorkerExit 0 1])
       [AddTask "c" apiReq 7%N; TimerFired 0] Hm Hu)))).
Defined.

(** ** From the router to the answer on timeout *)

Lemma stamps_overwrite (r : router) (before : routeFlags) :
  foldl (λ f r', stamp r' f) before (routersTo r) = stamp r before.
Proof. by destruct r. Qed.

(** X10: a request that reached its handler through the api or the waApi
    router and whose worker times out is answered with what
    [toHttpApiResponse] builds; one that came through the web router with
    what [toHttpResponse] builds. The flags the outer routers or anyone else
    wrote on the request before do not matter, and the answer goes to the
    promise of that very submission. *)
Theorem timeout_answer_by_router `{Collaborators}
    (maxW tmo : Z) (logger : bool) (evs : list event)
    (w : nat) (wk : worker) (handlerPath content : string)
    (r : router) (before : routeFlags) :
  let s := run evs (initWith maxW tmo logger) in
  submitted evs !! w = Some (handlerPath, requestVia r before content) →
  workers s !! w = Some wk → racing wk →
  promises (step s (TimerFired w)) !! w
  = Some (Fulfilled
            match r with
            | WebRouter => toHttpResponse timeoutError
            | ApiRouter | WaApiRouter => toHttpApiResponse timeoutError
            end).
Proof.
  intros s Hsub Hw Hr.
  destruct (worker_index maxW tmo logger evs w wk Hw) as (Hres & sub & Hs & Hp).
  fold s in Hw. rewrite Hsub in Hs. simplify_eq/=.
  assert (wd_isApiResource (w_data wk)
          = match r with WebRouter => false | _ => true end) as Hapi.
  { unfold payload, payloadOf, requestVia in Hp. simpl in Hp.
    rewrite stamps_overwrite in Hp. injection Hp as _ _ ->. by destruct r. }
  destruct (racing_pending maxW tmo logger evs (w_resolver wk) wk Hw Hr)
    as (_ & Hpend & _).
  fold s in Hpend. unfold timeoutError.
  rewrite (settleRace_timeout s (w_resolver wk) wk) by done.
  match goal with |- context [runNext ?x] =>
    destruct (runNext_frame x) as (_ & -> & _) end.
  simpl. rewrite Hapi. rewrite (settle_pending _ _ _ Hpend). by destruct r.
Qed.

Lemma timeout_answer_by_router_witness :
  submitted demoQueue !! 0%nat
  = Some ("a", requestVia WaApiRouter (RouteFlags "" false false)
                 "GET /api/status")
  ∧ workers demoState !! 0%nat = Some demoWorkerA ∧ racing demoWorkerA
  ∧ promises (step (H := demoCollaborators) demoState (TimerFired 0)) !! 0%nat
    = Some (Fulfilled (Response true 408 "{error:true,code:408}")).
Proof.
  assert (submitted demoQueue !! 0%nat
          = Some ("a", requestVia WaApiRouter (RouteFlags "" false false)
                         "GET /api/status")) as Hsub by reflexivity.
  assert (workers demoState !! 0%nat = Some demoWorkerA) as Hw
    by (vm_compute; reflexivity).
  assert (racing demoWorkerA) as Hr by (vm_compute; reflexivity).
  split; [exact Hsub|]. split; [exact Hw|]. split; [exact Hr|].
  exact (timeout_answer_by_router (H := demoCollaborators) 1 10000 false
           demoQueue 0 demoWorkerA "a" "GET /api/status" WaApiRouter
           (RouteFlags "" false false) Hsub Hw Hr).
Defined.

(** ** Ids under light load *)

(** X14: a task submitted while a slot is free finds the queue empty, so its
    id is [q0.] followed by the clock reading: the number in the id counts
    waiting tasks, and there are none unless the pool is full. *)
Theorem free_slot_id `{Collaborators}
    (maxW tmo : Z) (logger : bool) (evs : list event) (dateTime : N) :
  let s := run evs (initWith maxW tmo logger) in
  currWorker s < maxWorkers s →
  createQueueId s dateTime = "q0." +:+ pretty dateTime.
Proof.
  intros s Hfree.
  destruct (run_eager evs (initWith maxW tmo logger)) as [Hq|Hfull];
    [by left| |fold s in Hfull; lia].
  fold s in Hq. unfold createQueueId. by rewrite Hq.
Qed.

Lemma free_slot_id_witness :
  currWorker (run (H := demoCollaborators) demoQueue (initWith 3 10000 false))
  < maxWorkers (run (H := demoCollaborators) demoQueue
                  (initWith 3 10000 false))
  ∧ createQueueId (run (H := demoCollaborators) demoQueue
                     (initWith 3 10000 false)) 7%N
    = "q0.7".
Proof.
  assert (currWorker (run (H := demoCollaborators) demoQueue
                        (initWith 3 10000 false))
          < maxWorkers (run (H := demoCollaborators) demoQueue
                          (initWith 3 10000 false))) as Hfree
    by (vm_compute; reflexivity).
  split; [exact Hfree|].
  pose proof (free_slot_id (H := demoCollaborators) 3 10000 false demoQueue
                7%N Hfree) as Hid.
  vm_compute in Hid. vm_compute. exact Hid.
Defined.

(** * The module around the scheduler *)

(** ** [serveApp] *)



(** ** [defineApp] *)

Lemma app_defineApp setup found result m :
  app (defineApp setup found result m).2 = None
  ↔ app m = None ∧ typeofJs setup ≠ TyFunction.
Proof.
  unfold defineApp. case_bool_decide as Hty; simpl.
  - tauto.
  - destruct result; simpl; split; try done; by intros [_ ?].
Qed.

Lemma app_defineApps calls m :
  app (defineApps calls m) = None
  ↔ app m = None ∧ Forall (λ c, typeofJs (dc_setup c) ≠ TyFunction) calls.
Proof.
  revert m. induction calls as [|c calls IH]; intros m.
  { simpl. split; [by intros ?; split|by intros [? _]]. }
  unfold defineApps in *. simpl. rewrite IH, app_defineApp, Forall_cons.
  tauto.
Qed.

(** X12: [handleRequest] and [serveApp] stop refusing with "app is not
    initialized yet" exactly when some earlier call of [defineApp] was given
    a function, whether or not that function threw: a [setup] that throws
    still leaves the module initialised, and a call with a non-function
    changes nothing. *)
Theorem initialised_by_defineApp `{Collaborators}
    (calls : list defineCall) (handlerPath : string) :
  let m := defineApps calls module0 in
  (handleRequestJs m (JString handlerPath) = inr (addTask handlerPath)
   ↔ Exists (λ c, typeofJs (dc_setup c) = TyFunction) calls)
  ∧ (serveApp m noOptions = inr (Listen (JNumber 3000) None)
     ↔ Exists (λ c, typeofJs (dc_setup c) = TyFunction) calls).
Proof.
  intros m.
  assert (app m = None ↔ ¬ Exists (λ c, typeofJs (dc_setup c) = TyFunction) calls)
    as Happ.
  { unfold m. rewrite app_defineApps. simpl.
    rewrite <- Forall_Exists_neg. split; [by intros [_ ?]|by intros ?; split]. }
  unfold handleRequestJs, serveApp. destruct (app m) as [layers|] eqn:Hm; simpl.
  - assert (Exists (λ c, typeofJs (dc_setup c) = TyFunction) calls) as Hex.
    { destruct (decide (Exists (λ c, typeofJs (dc_setup c) = TyFunction) calls))
        as [?|Hno]; [done|]. by apply Happ in Hno. }
    by split.
  - assert (¬ Exists (λ c, typeofJs (dc_setup c) = TyFunction) calls) as Hno
      by (by apply Happ).
    split; split; try done; intros Hex; by destruct Hno.
Qed.

Lemma set_useLogger_id s : useLogger s = true → set_useLogger true s = s.
Proof. destruct s. simpl. by intros ->. Qed.

Lemma manager_defineApp setup found result m :
  manager (defineApp setup found result m).2
  = if bool_decide (typeofJs setup = TyFunction) && found
    then set_useLogger true (manager m) else manager m.
Proof.
  unfold defineApp. case_bool_decide as Hty; simpl.
  - by rewrite bool_decide_eq_false_2.
  - rewrite bool_decide_eq_true_2 by (by destruct (decide (typeofJs setup = TyFunction))).
    by destruct found, result.
Qed.

(** X13: [defineApp] never disturbs the scheduler. Over any sequence of
    calls the queue, the counter, the promises and the workers stay as they
    are; the only field that can change is [useLogger], it can only go from
    false to true, and it does so exactly when some call with a function
    found the logger already registered. *)
Theorem defineApp_keeps_scheduler (calls : list defineCall) (m : appModule) :
  manager (defineApps calls m)
  = if existsb (λ c, bool_decide (typeofJs (dc_setup c) = TyFunction)
                     && dc_loggerFound c) calls
    then set_useLogger true (manager m)
    else manager m.
Proof.
  revert m. induction calls as [|c calls IH]; intros m; [done|].
  unfold defineApps in *. simpl. rewrite IH, manager_defineApp.
  destruct (bool_decide (typeofJs (dc_setup c) = TyFunction) && dc_loggerFound c);
    simpl; [|done].
  by destruct (existsb _ calls).
Qed.
